(** * A Pratt parser for a small expression language

    Shallow embedding of [main.py]: the token model, the lexer, the three
    binding-power tables, the S-expression tree with its printer, and the
    precedence-climbing parser [expr_bp] with its entry point [expr].

    Conventions of the embedding.
    - A Python one-character [str] is an [ascii], read as the code point
      U+0000..U+00FF; an input string is a [string].
    - A Python [int] is a [Z].
    - The lexer's mutable token list is threaded explicitly: every function
      that calls [lexer.next()] returns the lexer it leaves behind.
    - A raised exception is the [Raise] outcome; no exception is ever caught
      in the program, so [Raise] simply propagates.
    - [expr_bp] recurses on the tokens left by its own recursive calls, so it
      is defined by recursion on a fuel counter; [OutOfFuel] is an outcome of
      the model only, and is shown never to occur with the fuel [expr] gives. *)

From Stdlib Require Import String Ascii List ZArith Lia Bool.
Import ListNotations.

Set Warnings "-register-all".
Local Open Scope Z_scope.

(** ** Token model *)

Module TokenType.
Inductive t : Set := ATOM | OP | EOF.

Definition eqb (a b : t) : bool :=
  match a, b with
  | ATOM, ATOM | OP, OP | EOF, EOF => true
  | _, _ => false
  end.
End TokenType.

(** [@dataclass class Token]: a type tag and a character.  The dataclass
    generates [__eq__] (field-wise) and no [__bool__] or [__len__], so every
    instance is truthy. *)
Module Token.
Record t : Set := mk { type : TokenType.t; char : ascii }.

Definition Atom (char : ascii) : t := mk TokenType.ATOM char.
Definition Op (char : ascii) : t := mk TokenType.OP char.
Definition Eof : t := mk TokenType.EOF "000"%char.

(** [==] on two tokens. *)
Definition eqb (a b : t) : bool :=
  TokenType.eqb (type a) (type b) && Ascii.eqb (char a) (char b).

(** [bool(token)]: the truth value Python gives an instance of a class that
    defines neither [__bool__] nor [__len__]. *)
Definition truth (_ : t) : bool := true.
End Token.

(** ** Outcomes: a value, a raised exception, or an exhausted fuel counter *)

Inductive Exn : Set :=
| BadTokenError (token : Token.t)
| BadOpError (op : ascii)
| AssertionError.

Inductive outcome (A : Type) : Type :=
| Ok (a : A)
| Raise (e : Exn)
| OutOfFuel.

Arguments Ok {A} a.
Arguments Raise {A} e.
Arguments OutOfFuel {A}.

Definition bind {A B : Type} (m : outcome A) (k : A -> outcome B) : outcome B :=
  match m with
  | Ok a => k a
  | Raise e => Raise e
  | OutOfFuel => OutOfFuel
  end.

Notation "x <- m ;; k" := (bind m (fun x => k))
  (at level 61, m at next level, right associativity).
Notation "' p <- m ;; k" := (bind m (fun x => let 'p := x in k))
  (at level 61, p pattern, m at next level, right associativity).

(** [assert cond]: raises [AssertionError] when [cond] is false. *)
Definition assert (cond : bool) : outcome unit :=
  if cond then Ok tt else Raise AssertionError.

(** ** Lexer *)

(** [str.isalnum] on one character, for the code points U+0000..U+00FF:
    the ASCII digits and letters, and the Latin-1 letters, superscript
    digits and vulgar fractions that Python's Unicode tables classify as
    alphabetic, digit or numeric. *)
Definition isalnum (c : ascii) : bool :=
  let n := N_of_ascii c in
  ((48 <=? n) && (n <=? 57) || (65 <=? n) && (n <=? 90)
   || (97 <=? n) && (n <=? 122)
   || (n =? 170) || (n =? 178) || (n =? 179) || (n =? 181) || (n =? 185)
   || (n =? 186) || (n =? 188) || (n =? 189) || (n =? 190)
   || (192 <=? n) && (n <=? 214) || (216 <=? n) && (n <=? 246)
   || (248 <=? n) && (n <=? 255))%N.

(** [input_string.replace(" ", "")]: drops every U+0020 and nothing else. *)
Fixpoint remove_spaces (s : string) : string :=
  match s with
  | EmptyString => EmptyString
  | String c s' =>
      if Ascii.eqb c " "%char then remove_spaces s'
      else String c (remove_spaces s')
  end.

Module Lexer.
(** [self.tokens] is a Python list used as a stack whose top is its last
    element.  The embedding lists it from the top down: the head of [t] is
    [self.tokens[-1]], the token that [next] pops. *)
Definition t : Set := list Token.t.

(** The [for] loop of [__init__]: one token per character, appended in
    input order. *)
Fixpoint classify (s : string) : list Token.t :=
  match s with
  | EmptyString => []
  | String char s' =>
      (if isalnum char then Token.Atom char else Token.Op char) :: classify s'
  end.

(** [Lexer(input_string)].  After [self.tokens.reverse()] the last element
    of the Python list is the first character's token, so the stack read
    from the top down is the tokens in input order. *)
Definition __init__ (input_string : string) : t :=
  classify (remove_spaces input_string).

Definition next (self : t) : Token.t * t :=
  match self with
  | tok :: rest => (tok, rest)
  | [] => (Token.Eof, [])
  end.

Definition peek (self : t) : Token.t :=
  match self with
  | tok :: _ => tok
  | [] => Token.Eof
  end.
End Lexer.

(** ** S-expression tree and printer *)

Module SType.
Inductive t : Set := ATOM | CONS.
End SType.

Module S.
Inductive t : Set := mk (type : SType.t) (char : ascii) (vec : list t).

Definition Atom (char : ascii) : t := mk SType.ATOM char [].
Definition Cons (char : ascii) (vec : list t) : t := mk SType.CONS char vec.

(** [S.__str__]: an ATOM is its character; otherwise the head after an
    opening parenthesis, each child after one space, and a closing
    parenthesis. *)
Fixpoint __str__ (self : t) : string :=
  match self with
  | mk SType.ATOM char _ => String char EmptyString
  | mk SType.CONS char vec =>
      (fold_left (fun string s => string ++ " " ++ __str__ s) vec
                 (String "(" (String char EmptyString)) ++ ")")%string
  end.
End S.

(** ** Binding-power tables *)

Definition prefix_binding_power (op : ascii) : outcome (unit * Z) :=
  match op with
  | "+"%char | "-"%char => Ok (tt, 9)
  | _ => Raise (BadOpError op)
  end.

Definition postfix_binding_power (op : ascii) : option (Z * unit) :=
  match op with
  | "!"%char => Some (11, tt)
  | "["%char => Some (11, tt)
  | _ => None
  end.

Definition infix_binding_power (op : ascii) : option (Z * Z) :=
  match op with
  | "="%char => Some (2, 1)
  | "?"%char => Some (4, 3)
  | "+"%char | "-"%char => Some (5, 6)
  | "*"%char | "/"%char => Some (7, 8)
  | "."%char => Some (14, 13)
  | _ => None
  end.

(** ** Expression parser *)

(** What one pass through the body of [while True] does to the loop:
    [break], or [continue] with a new [lhs] and the lexer left behind. *)
Inductive ctl : Set :=
| Break
| Continue (lhs : S.t) (lexer : Lexer.t).

(** The body of the [while True] loop of [expr_bp]; [rec] stands for the
    recursive calls [expr_bp(lexer, _)].  [if bp := f(op)] tests the truth
    of the table's answer: [None] is false, a pair is true. *)
Definition loop_body (rec : Lexer.t -> Z -> outcome (S.t * Lexer.t))
    (lhs : S.t) (lexer : Lexer.t) (min_bp : Z) : outcome ctl :=
  let tok := Lexer.peek lexer in
  match Token.type tok with
  | TokenType.EOF => Ok Break
  | TokenType.OP =>
      let op := Token.char tok in
      match postfix_binding_power op with
      | Some (l_bp, _) =>
          if l_bp <? min_bp then Ok Break
          else
            let '(_, lexer) := Lexer.next lexer in
            if Ascii.eqb op "["%char then
              '(rhs, lexer) <- rec lexer 0 ;;
              let '(tok', lexer) := Lexer.next lexer in
              _ <- assert (Token.eqb tok' (Token.Op "]"%char)) ;;
              Ok (Continue (S.Cons op [lhs; rhs]) lexer)
            else
              Ok (Continue (S.Cons op [lhs]) lexer)
      | None =>
          match infix_binding_power op with
          | Some (l_bp, r_bp) =>
              if l_bp <? min_bp then Ok Break
              else
                let '(_, lexer) := Lexer.next lexer in
                if Ascii.eqb op "?"%char then
                  '(mhs, lexer) <- rec lexer 0 ;;
                  let '(tok', lexer) := Lexer.next lexer in
                  _ <- assert (Token.eqb tok' (Token.Op ":"%char)) ;;
                  '(rhs, lexer) <- rec lexer r_bp ;;
                  Ok (Continue (S.Cons op [lhs; mhs; rhs]) lexer)
                else
                  '(rhs, lexer) <- rec lexer r_bp ;;
                  Ok (Continue (S.Cons op [lhs; rhs]) lexer)
          | None => Ok Break
          end
      end
  | _ => Raise (BadTokenError tok)
  end.

(** The first [match] of [expr_bp], which establishes [lhs]; [rec] stands
    for the recursive calls.  The statement
    [assert lexer.next(), Token.Op(")")] of the grouping case pops a token
    and asserts its truth value; [Token.Op(")")] is only the message of the
    assertion. *)
Definition establish_lhs (rec : Lexer.t -> Z -> outcome (S.t * Lexer.t))
    (lexer : Lexer.t) : outcome (S.t * Lexer.t) :=
  let '(tok, lexer) := Lexer.next lexer in
  match Token.type tok with
  | TokenType.ATOM => Ok (S.Atom (Token.char tok), lexer)
  | TokenType.OP =>
      let op := Token.char tok in
      if Ascii.eqb op "("%char then
        '(lhs, lexer) <- rec lexer 0 ;;
        let '(tok', lexer) := Lexer.next lexer in
        _ <- assert (Token.truth tok') ;;
        Ok (lhs, lexer)
      else
        '(_, r_bp) <- prefix_binding_power op ;;
        '(rhs, lexer) <- rec lexer r_bp ;;
        Ok (S.Cons op [rhs], lexer)
  | _ => Raise (BadTokenError tok)
  end.

(** [expr_bp(lexer, min_bp)]: establish [lhs], then run the [while True]
    loop until it breaks, and return [lhs]. *)
Fixpoint expr_bp (fuel : nat) (lexer : Lexer.t) (min_bp : Z) {struct fuel}
    : outcome (S.t * Lexer.t) :=
  match fuel with
  | O => OutOfFuel
  | S fuel =>
      '(lhs, lexer) <- establish_lhs (expr_bp fuel) lexer ;;
      while_loop fuel lhs lexer min_bp
  end

with while_loop (fuel : nat) (lhs : S.t) (lexer : Lexer.t) (min_bp : Z)
    {struct fuel} : outcome (S.t * Lexer.t) :=
  match fuel with
  | O => OutOfFuel
  | S fuel =>
      c <- loop_body (expr_bp fuel) lhs lexer min_bp ;;
      match c with
      | Break => Ok (lhs, lexer)
      | Continue lhs lexer => while_loop fuel lhs lexer min_bp
      end
  end.

(** [expr(input_string)], keeping the lexer that [expr_bp] leaves behind.
    One more unit of fuel than there are tokens is always enough. *)
Definition expr_lexer (input_string : string) : outcome (S.t * Lexer.t) :=
  let lexer := Lexer.__init__ input_string in
  expr_bp (S (length lexer)) lexer 0.

(** [expr(input_string)]: the tree alone; the lexer is local to the call. *)
Definition expr (input_string : string) : outcome S.t :=
  '(s, _) <- expr_lexer input_string ;;
  Ok s.

(** [str(expr(input_string))]. *)
Definition expr_str (input_string : string) : outcome string :=
  s <- expr input_string ;;
  Ok (S.__str__ s).

(** ** Predicates on a parsing function, used to reason about the loop body *)

(** [rec] pops at least one token whenever it returns. *)
Definition shrinking (rec : Lexer.t -> Z -> outcome (S.t * Lexer.t)) : Prop :=
  forall lexer min_bp s lexer',
    rec lexer min_bp = Ok (s, lexer') -> (length lexer' < length lexer)%nat.

(** [rec'] agrees with [rec] wherever [rec] does not run out of fuel. *)
Definition extends (rec rec' : Lexer.t -> Z -> outcome (S.t * Lexer.t)) : Prop :=
  forall lexer min_bp,
    rec lexer min_bp <> OutOfFuel -> rec' lexer min_bp = rec lexer min_bp.

(** [rec] parses a token list followed by a closing parenthesis as it parses
    the token list alone: it returns the same tree, and leaves the
    parenthesis behind the tokens it left, unless it left none and met the
    parenthesis where it would have met the end of input, and popped it. *)
Definition closing (rec : Lexer.t -> Z -> outcome (S.t * Lexer.t)) : Prop :=
  forall lexer min_bp s lexer',
    rec lexer min_bp = Ok (s, lexer') ->
    rec (lexer ++ [Token.Op ")"%char])%list min_bp
      = Ok (s, (lexer' ++ [Token.Op ")"%char])%list)
    \/ (lexer' = [] /\
        rec (lexer ++ [Token.Op ")"%char])%list min_bp = Ok (s, [])).

(** ** Notions used to state further properties *)

(** The atoms of a tree, read from left to right. *)
Fixpoint leaves (s : S.t) : list ascii :=
  match s with
  | S.mk SType.ATOM char _ => [char]
  | S.mk SType.CONS _ vec => flat_map leaves vec
  end.

(** The characters of the ATOM tokens of a token list, in order. *)
Fixpoint atom_chars (tokens : list Token.t) : list ascii :=
  match tokens with
  | [] => []
  | tok :: rest =>
      match Token.type tok with
      | TokenType.ATOM => Token.char tok :: atom_chars rest
      | _ => atom_chars rest
      end
  end.

(** The numbers of children [expr_bp] gives a node, by its head: one for a
    prefix [+] or [-] and for [!], two for an index and for an infix
    operator, three for [?]. *)
Definition arity_ok (op : ascii) (n : nat) : bool :=
  match n with
  | 1%nat => match op with "+"%char | "-"%char | "!"%char => true | _ => false end
  | 2%nat =>
      match op with
      | "["%char | "="%char | "+"%char | "-"%char | "*"%char | "/"%char
      | "."%char => true
      | _ => false
      end
  | 3%nat => match op with "?"%char => true | _ => false end
  | _ => false
  end.

(** An ATOM node has no children; a CONS node has a number of children that
    fits its head, and well-formed children. *)
Fixpoint well_formed (s : S.t) : bool :=
  match s with
  | S.mk SType.ATOM _ vec => match vec with [] => true | _ => false end
  | S.mk SType.CONS char vec =>
      arity_ok char (length vec) && forallb well_formed vec
  end.

(** The trees that [S.__str__] prints without loss: an ATOM node has no
    children and its character is not the opening parenthesis. *)
Fixpoint printable (s : S.t) : bool :=
  match s with
  | S.mk SType.ATOM char vec =>
      match vec with [] => negb (Ascii.eqb char "("%char) | _ => false end
  | S.mk SType.CONS _ vec => forallb printable vec
  end.

(** [lexer'] is what is left of [lexer] after a front part of it was read,
    and the atoms of [s] are [pre] followed by the atoms of that part. *)
Definition reads (lexer : Lexer.t) (pre : list ascii) (s : S.t)
    (lexer' : Lexer.t) : Prop :=
  exists consumed,
    lexer = (consumed ++ lexer')%list /\
    leaves s = (pre ++ atom_chars consumed)%list.

(** Whenever [rec] returns, it has read a front part of the lexer, in
    order, into a well-formed tree, and the next token is not an atom. *)
Definition faithful (rec : Lexer.t -> Z -> outcome (S.t * Lexer.t)) : Prop :=
  forall lexer min_bp s lexer',
    rec lexer min_bp = Ok (s, lexer') ->
    reads lexer [] s lexer' /\
    Token.type (Lexer.peek lexer') <> TokenType.ATOM /\
    well_formed s = true.

(** Whenever [rec] returns and leaves a token unread, it returns the same
    with any tokens appended to the lexer. *)
Definition stable (rec : Lexer.t -> Z -> outcome (S.t * Lexer.t)) : Prop :=
  forall lexer min_bp s lexer' extra,
    rec lexer min_bp = Ok (s, lexer') ->
    lexer' <> [] ->
    rec (lexer ++ extra)%list min_bp = Ok (s, (lexer' ++ extra)%list).

(** [s] between [n] pairs of parentheses. *)
Fixpoint parenthesize (n : nat) (s : string) : string :=
  match n with
  | O => s
  | S n => ("(" ++ parenthesize n s ++ ")")%string
  end.

(** What an exception raised on the tokens [lexer] carries: a
    [BadTokenError] the [Eof] token or a token of [lexer] that is not an
    operator; a [BadOpError] an operator of [lexer] that the prefix table
    refuses and that is not the opening parenthesis; and an
    [AssertionError] is raised only when [lexer] has an opening bracket or a
    question mark. *)
Definition explains (lexer : Lexer.t) (e : Exn) : Prop :=
  match e with
  | BadTokenError tok =>
      Token.type tok <> TokenType.OP /\ (tok = Token.Eof \/ In tok lexer)
  | BadOpError op =>
      In (Token.Op op) lexer /\ op <> "("%char /\
      prefix_binding_power op = Raise (BadOpError op)
  | AssertionError =>
      In (Token.Op "["%char) lexer \/ In (Token.Op "?"%char) lexer
  end.

(** The exceptions that [rec] raises are explained by its tokens. *)
Definition explained (rec : Lexer.t -> Z -> outcome (S.t * Lexer.t)) : Prop :=
  forall lexer min_bp e, rec lexer min_bp = Raise e -> explains lexer e.

(** The tokens of a chain of infix operators and atoms that follows a first
    operand: each pair is an operator and the atom after it. *)
Definition infix_tokens (pairs : list (ascii * ascii)) : list Token.t :=
  flat_map (fun p => [Token.Op (fst p); Token.Atom (snd p)]) pairs.

(** The chain grouped to the left, [((lhs op1 a1) op2 a2) ...]. *)
Definition left_nested (lhs : S.t) (pairs : list (ascii * ascii)) : S.t :=
  fold_left (fun acc p => S.Cons (fst p) [acc; S.Atom (snd p)]) pairs lhs.

(** The chain grouped to the right, [a op1 (a1 op2 (a2 ...))]. *)
Fixpoint right_nested (a : ascii) (pairs : list (ascii * ascii)) : S.t :=
  match pairs with
  | [] => S.Atom a
  | p :: pairs => S.Cons (fst p) [S.Atom a; right_nested (snd p) pairs]
  end.

(** An atom under a chain of prefix operators, the first outermost. *)
Definition prefixed (ops : list ascii) (a : ascii) : S.t :=
  fold_right (fun op acc => S.Cons op [acc]) (S.Atom a) ops.

(** * Properties *)

(** ** The assertions and the outcome monad *)

Lemma bind_Ok_inv {A B : Type} (m : outcome A) (k : A -> outcome B) (b : B) :
  bind m k = Ok b -> exists a, m = Ok a /\ k a = Ok b.
Proof.
  destruct m as [a | e |]; simpl; intro H; try discriminate.
  exists a; split; [reflexivity | exact H].
Qed.

Lemma Token_eqb_eq (a b : Token.t) : Token.eqb a b = true <-> a = b.
Proof.
  destruct a as [ta ca], b as [tb cb]; unfold Token.eqb; simpl.
  rewrite andb_true_iff, Ascii.eqb_eq; split.
  - intros [Ht ->]; destruct ta, tb; simpl in Ht; congruence.
  - intros H; inversion H; subst; split; [destruct tb|]; reflexivity.
Qed.

(** ** The binding-power tables *)

Lemma prefix_binding_power_fuel (op : ascii) :
  prefix_binding_power op <> OutOfFuel.
Proof. destruct op as [[] [] [] [] [] [] [] []]; discriminate. Qed.

(** ** The two halves of [expr_bp], for an arbitrary recursive call *)

Section Halves.
Variable rec : Lexer.t -> Z -> outcome (S.t * Lexer.t).

Lemma next_length (lexer : Lexer.t) :
  (length (snd (Lexer.next lexer)) <= length lexer)%nat.
Proof. destruct lexer; simpl; lia. Qed.

Lemma loop_body_Continue_shrinks (lhs lhs' : S.t) (lexer lexer' : Lexer.t)
    (min_bp : Z) :
  shrinking rec ->
  loop_body rec lhs lexer min_bp = Ok (Continue lhs' lexer') ->
  (length lexer' < length lexer)%nat.
Proof.
  intros Hrec. unfold loop_body.
  destruct lexer as [| [[] op] rest]; simpl; try discriminate.
  destruct (postfix_binding_power op) as [[l_bp []] |].
  - destruct (l_bp <? min_bp); [discriminate |].
    destruct (Ascii.eqb op "["%char).
    + destruct (rec rest 0) as [[rhs l1] | |] eqn:E; simpl; try discriminate.
      apply Hrec in E.
      destruct l1 as [| tok' l2]; simpl; [discriminate |].
      destruct (Token.eqb tok' _); simpl; [| discriminate].
      intros [= _ <-]. simpl in E. lia.
    + intros [= _ <-]. lia.
  - destruct (infix_binding_power op) as [[l_bp r_bp] |]; [| discriminate].
    destruct (l_bp <? min_bp); [discriminate |].
    destruct (Ascii.eqb op "?"%char).
    + destruct (rec rest 0) as [[mhs l1] | |] eqn:E; simpl; try discriminate.
      apply Hrec in E.
      destruct l1 as [| tok' l2]; simpl; [discriminate |].
      destruct (Token.eqb tok' _); simpl; [| discriminate].
      destruct (rec l2 r_bp) as [[rhs l3] | |] eqn:E'; simpl; try discriminate.
      apply Hrec in E'.
      intros [= _ <-]. simpl in E. lia.
    + destruct (rec rest r_bp) as [[rhs l1] | |] eqn:E; simpl; try discriminate.
      apply Hrec in E.
      intros [= _ <-]. lia.
Qed.

Lemma loop_body_fuel (lhs : S.t) (lexer : Lexer.t) (min_bp : Z) :
  shrinking rec ->
  (forall lexer' bp,
      (length lexer' < length lexer)%nat -> rec lexer' bp <> OutOfFuel) ->
  loop_body rec lhs lexer min_bp <> OutOfFuel.
Proof.
  intros Hrec Hfuel. unfold loop_body.
  destruct lexer as [| [[] op] rest]; simpl; try discriminate.
  destruct (postfix_binding_power op) as [[l_bp []] |].
  - destruct (l_bp <? min_bp); [discriminate |].
    destruct (Ascii.eqb op "["%char); [| discriminate].
    destruct (rec rest 0) as [[rhs l1] | |] eqn:E; simpl; try discriminate.
    + destruct (Lexer.next l1) as [tok' l2].
      destruct (Token.eqb tok' _); simpl; discriminate.
    + exfalso. apply (Hfuel rest 0); [simpl; lia | exact E].
  - destruct (infix_binding_power op) as [[l_bp r_bp] |]; [| discriminate].
    destruct (l_bp <? min_bp); [discriminate |].
    destruct (Ascii.eqb op "?"%char).
    + destruct (rec rest 0) as [[mhs l1] | |] eqn:E; simpl; try discriminate.
      * apply Hrec in E.
        destruct l1 as [| tok' l2]; simpl; [discriminate |].
        destruct (Token.eqb tok' _); simpl; [| discriminate].
        destruct (rec l2 r_bp) as [[rhs l3] | |] eqn:E'; simpl; try discriminate.
        exfalso. apply (Hfuel l2 r_bp); [simpl in *; lia | exact E'].
      * exfalso. apply (Hfuel rest 0); [simpl; lia | exact E].
    + destruct (rec rest r_bp) as [[rhs l1] | |] eqn:E; simpl; try discriminate.
      exfalso. apply (Hfuel rest r_bp); [simpl; lia | exact E].
Qed.

Lemma establish_lhs_shrinks (lexer : Lexer.t) :
  shrinking rec ->
  forall s lexer',
    establish_lhs rec lexer = Ok (s, lexer') ->
    (length lexer' < length lexer)%nat.
Proof.
  intros Hrec s lexer'. unfold establish_lhs.
  destruct lexer as [| [[] c] rest]; simpl; try discriminate.
  - intros [= _ <-]. lia.
  - destruct (Ascii.eqb c "("%char).
    + destruct (rec rest 0) as [[lhs l1] | |] eqn:E; simpl; try discriminate.
      apply Hrec in E. pose proof (next_length l1) as Hn.
      destruct (Lexer.next l1) as [tok' l2]. simpl in *.
      intros [= _ <-]. lia.
    + destruct (prefix_binding_power c) as [[[] r_bp] | |]; simpl;
        try discriminate.
      destruct (rec rest r_bp) as [[rhs l1] | |] eqn:E; simpl;
        try discriminate.
      apply Hrec in E. intros [= _ <-]. lia.
Qed.

Lemma establish_lhs_fuel (lexer : Lexer.t) :
  (forall lexer' bp,
      (length lexer' < length lexer)%nat -> rec lexer' bp <> OutOfFuel) ->
  establish_lhs rec lexer <> OutOfFuel.
Proof.
  intros Hfuel. unfold establish_lhs.
  destruct lexer as [| [[] c] rest]; simpl; try discriminate.
  destruct (Ascii.eqb c "("%char).
  - destruct (rec rest 0) as [[lhs l1] | |] eqn:E; simpl; try discriminate.
    + destruct (Lexer.next l1) as [tok' l2]. discriminate.
    + exfalso. apply (Hfuel rest 0); [simpl; lia | exact E].
  - pose proof (prefix_binding_power_fuel c) as Hp.
    destruct (prefix_binding_power c) as [[[] r_bp] | |]; simpl;
      try discriminate; [| congruence].
    destruct (rec rest r_bp) as [[rhs l1] | |] eqn:E; simpl; try discriminate.
    exfalso. apply (Hfuel rest r_bp); [simpl; lia | exact E].
Qed.
End Halves.

Lemma establish_lhs_extends (rec rec' : Lexer.t -> Z -> outcome (S.t * Lexer.t))
    (lexer : Lexer.t) :
  extends rec rec' ->
  establish_lhs rec lexer <> OutOfFuel ->
  establish_lhs rec' lexer = establish_lhs rec lexer.
Proof.
  intros Hext. unfold establish_lhs.
  destruct (Lexer.next lexer) as [tok rest].
  destruct (Token.type tok); try reflexivity.
  destruct (Ascii.eqb _ "("%char).
  - destruct (rec rest 0) as [[lhs l1] | |] eqn:E; simpl;
      intros H; try congruence;
      rewrite Hext, E by congruence; reflexivity.
  - destruct (prefix_binding_power _) as [[[] r_bp] | |]; simpl;
      try reflexivity.
    destruct (rec rest r_bp) as [[rhs l1] | |] eqn:E; simpl;
      intros H; try congruence;
      rewrite Hext, E by congruence; reflexivity.
Qed.

Lemma loop_body_extends (rec rec' : Lexer.t -> Z -> outcome (S.t * Lexer.t))
    (lhs : S.t) (lexer : Lexer.t) (min_bp : Z) :
  extends rec rec' ->
  loop_body rec lhs lexer min_bp <> OutOfFuel ->
  loop_body rec' lhs lexer min_bp = loop_body rec lhs lexer min_bp.
Proof.
  intros Hext. unfold loop_body.
  destruct (Token.type (Lexer.peek lexer)); try reflexivity.
  destruct (postfix_binding_power _) as [[l_bp []] |].
  - destruct (l_bp <? min_bp); [reflexivity |].
    destruct (Lexer.next lexer) as [tok rest].
    destruct (Ascii.eqb _ "["%char); [| reflexivity].
    destruct (rec rest 0) as [[rhs l1] | |] eqn:E; simpl;
      intros H; try congruence;
      rewrite Hext, E by congruence; reflexivity.
  - destruct (infix_binding_power _) as [[l_bp r_bp] |]; [| reflexivity].
    destruct (l_bp <? min_bp); [reflexivity |].
    destruct (Lexer.next lexer) as [tok rest].
    destruct (Ascii.eqb _ "?"%char).
    + destruct (rec rest 0) as [[mhs l1] | |] eqn:E; simpl;
        intros H; try congruence;
        rewrite Hext, E by congruence; simpl; [| reflexivity].
      destruct (Lexer.next l1) as [tok' l2].
      destruct (assert _); simpl in *; try reflexivity.
      destruct (rec l2 r_bp) as [[rhs l3] | |] eqn:E'; simpl in *;
        try congruence; rewrite Hext, E' by congruence; reflexivity.
    + destruct (rec rest r_bp) as [[rhs l1] | |] eqn:E; simpl;
        intros H; try congruence;
        rewrite Hext, E by congruence; reflexivity.
Qed.

(** ** Fuel: the tokens left shrink, and fuel beyond the token count is idle *)

Lemma expr_bp_S (fuel : nat) (lexer : Lexer.t) (min_bp : Z) :
  expr_bp (S fuel) lexer min_bp
  = ('(lhs, lexer) <- establish_lhs (expr_bp fuel) lexer ;;
     while_loop fuel lhs lexer min_bp).
Proof. reflexivity. Qed.

Lemma while_loop_S (fuel : nat) (lhs : S.t) (lexer : Lexer.t) (min_bp : Z) :
  while_loop (S fuel) lhs lexer min_bp
  = (c <- loop_body (expr_bp fuel) lhs lexer min_bp ;;
     match c with
     | Break => Ok (lhs, lexer)
     | Continue lhs lexer => while_loop fuel lhs lexer min_bp
     end).
Proof. reflexivity. Qed.

Lemma expr_bp_shrinks (fuel : nat) :
  shrinking (expr_bp fuel) /\
  (forall lhs lexer min_bp s lexer',
      while_loop fuel lhs lexer min_bp = Ok (s, lexer') ->
      (length lexer' <= length lexer)%nat).
Proof.
  induction fuel as [| fuel [IHe IHw]];
    [unfold shrinking; split; intros; discriminate |].
  split.
  - intros lexer min_bp s lexer' H. simpl in H.
    apply bind_Ok_inv in H as [[lhs l1] [E H]].
    apply establish_lhs_shrinks in E; [| exact IHe].
    apply IHw in H. lia.
  - intros lhs lexer min_bp s lexer' H. simpl in H.
    apply bind_Ok_inv in H as [[| lhs' l1] [E H]].
    + injection H as _ <-. lia.
    + apply loop_body_Continue_shrinks in E; [| exact IHe].
      apply IHw in H. lia.
Qed.

Lemma fuel_step (fuel : nat) :
  extends (expr_bp fuel) (expr_bp (S fuel)) /\
  (forall lhs lexer min_bp,
      while_loop fuel lhs lexer min_bp <> OutOfFuel ->
      while_loop (S fuel) lhs lexer min_bp = while_loop fuel lhs lexer min_bp).
Proof.
  induction fuel as [| fuel [IHe IHw]];
    [unfold extends; split; intros; simpl in *; congruence |].
  split.
  - intros lexer min_bp H.
    rewrite (expr_bp_S (S fuel)). rewrite (expr_bp_S fuel) in *.
    destruct (establish_lhs (expr_bp fuel) lexer) as [[lhs l1] | |] eqn:E;
      cbn [bind] in H; try congruence;
      rewrite (establish_lhs_extends _ _ _ IHe), E by congruence; cbn [bind];
      try reflexivity.
    apply IHw. exact H.
  - intros lhs lexer min_bp H.
    rewrite (while_loop_S (S fuel)). rewrite (while_loop_S fuel) in *.
    destruct (loop_body (expr_bp fuel) lhs lexer min_bp) as [[| lhs' l1] | |]
      eqn:E; cbn [bind] in H; try congruence;
      rewrite (loop_body_extends _ _ _ _ _ IHe), E by congruence; cbn [bind];
      try reflexivity.
    apply IHw. exact H.
Qed.

Lemma fuel_mono (fuel fuel' : nat) :
  (fuel <= fuel')%nat ->
  extends (expr_bp fuel) (expr_bp fuel') /\
  (forall lhs lexer min_bp,
      while_loop fuel lhs lexer min_bp <> OutOfFuel ->
      while_loop fuel' lhs lexer min_bp = while_loop fuel lhs lexer min_bp).
Proof.
  induction 1 as [| fuel' _ [IHe IHw]].
  - split; [intros lexer min_bp _ | intros lhs lexer min_bp _]; reflexivity.
  - destruct (fuel_step fuel') as [He Hw]. split.
    + intros lexer min_bp H. rewrite <- (IHe _ _ H). apply He.
      rewrite IHe; exact H.
    + intros lhs lexer min_bp H. rewrite <- (IHw _ _ _ H). apply Hw.
      rewrite IHw; exact H.
Qed.

Lemma fuel_enough (fuel : nat) :
  (forall lexer min_bp,
      (length lexer < fuel)%nat -> expr_bp fuel lexer min_bp <> OutOfFuel) /\
  (forall lhs lexer min_bp,
      (length lexer < fuel)%nat -> while_loop fuel lhs lexer min_bp <> OutOfFuel).
Proof.
  induction fuel as [| fuel [IHe IHw]]; [split; intros; lia |].
  destruct (expr_bp_shrinks fuel) as [Hs _].
  split.
  - intros lexer min_bp Hlen. simpl.
    destruct (establish_lhs (expr_bp fuel) lexer) as [[lhs l1] | |] eqn:E;
      simpl; try discriminate.
    + apply establish_lhs_shrinks in E; [| exact Hs]. apply IHw. lia.
    + exfalso. revert E. apply establish_lhs_fuel.
      intros lexer' bp Hlt. apply IHe. lia.
  - intros lhs lexer min_bp Hlen. simpl.
    destruct (loop_body (expr_bp fuel) lhs lexer min_bp) as [[| lhs' l1] | |]
      eqn:E; simpl; try discriminate.
    + apply loop_body_Continue_shrinks in E; [| exact Hs]. apply IHw. lia.
    + exfalso. revert E. apply loop_body_fuel; [exact Hs |].
      intros lexer' bp Hlt. apply IHe. lia.
Qed.

(** ** A closing parenthesis after the tokens *)

Section Closing.
Variable rec : Lexer.t -> Z -> outcome (S.t * Lexer.t).
Hypothesis Hrec : closing rec.

Local Abbreviation close := (Token.Op ")"%char).

Lemma establish_lhs_closing (lexer : Lexer.t) (s : S.t) (lexer' : Lexer.t) :
  establish_lhs rec lexer = Ok (s, lexer') ->
  establish_lhs rec (lexer ++ [close])%list = Ok (s, (lexer' ++ [close])%list)
  \/ (lexer' = [] /\ establish_lhs rec (lexer ++ [close])%list = Ok (s, [])).
Proof.
  unfold establish_lhs.
  destruct lexer as [| [[] c] rest]; simpl; try discriminate.
  - intros [= <- <-]. left; reflexivity.
  - destruct (Ascii.eqb c "("%char).
    + destruct (rec rest 0) as [[lhs l1] | |] eqn:E; simpl; try discriminate.
      destruct (Hrec _ _ _ _ E) as [-> | [-> ->]]; simpl.
      * destruct l1 as [| tok' l2]; simpl; intros [= <- <-];
          [right | left]; auto.
      * intros [= <- <-]. right; auto.
    + destruct (prefix_binding_power c) as [[[] r_bp] | |]; simpl;
        try discriminate.
      destruct (rec rest r_bp) as [[rhs l1] | |] eqn:E; simpl;
        try discriminate.
      intros [= <- <-].
      destruct (Hrec _ _ _ _ E) as [-> | [-> ->]]; simpl; auto.
Qed.

Lemma loop_body_closing (lhs : S.t) (lexer : Lexer.t) (min_bp : Z) :
  match loop_body rec lhs lexer min_bp with
  | Ok Break => loop_body rec lhs (lexer ++ [close])%list min_bp = Ok Break
  | Ok (Continue lhs' lexer') =>
      loop_body rec lhs (lexer ++ [close])%list min_bp
        = Ok (Continue lhs' (lexer' ++ [close])%list)
      \/ (lexer' = [] /\
          loop_body rec lhs (lexer ++ [close])%list min_bp
            = Ok (Continue lhs' []))
  | _ => True
  end.
Proof.
  unfold loop_body.
  destruct lexer as [| [[] op] rest]; simpl; try exact I; try reflexivity.
  destruct (postfix_binding_power op) as [[l_bp []] |].
  - destruct (l_bp <? min_bp); [reflexivity |].
    destruct (Ascii.eqb op "["%char); [| left; reflexivity].
    destruct (rec rest 0) as [[rhs l1] | |] eqn:E; simpl; try exact I.
    destruct l1 as [| tok' l2]; simpl; [exact I |].
    destruct (Hrec _ _ _ _ E) as [-> | [[=] _]]; simpl.
    destruct (Token.eqb tok' _); simpl; [left; reflexivity | exact I].
  - destruct (infix_binding_power op) as [[l_bp r_bp] |]; [| reflexivity].
    destruct (l_bp <? min_bp); [reflexivity |].
    destruct (Ascii.eqb op "?"%char).
    + destruct (rec rest 0) as [[mhs l1] | |] eqn:E; simpl; try exact I.
      destruct l1 as [| tok' l2]; simpl; [exact I |].
      destruct (Hrec _ _ _ _ E) as [-> | [[=] _]]; simpl.
      destruct (Token.eqb tok' _); simpl; [| exact I].
      destruct (rec l2 r_bp) as [[rhs l3] | |] eqn:E'; simpl; try exact I.
      destruct (Hrec _ _ _ _ E') as [-> | [-> ->]]; simpl; auto.
    + destruct (rec rest r_bp) as [[rhs l1] | |] eqn:E; simpl; try exact I.
      destruct (Hrec _ _ _ _ E) as [-> | [-> ->]]; simpl; auto.
Qed.
End Closing.

Lemma expr_bp_closing (fuel : nat) :
  closing (expr_bp fuel) /\
  (forall lhs, closing (fun lexer min_bp => while_loop fuel lhs lexer min_bp)).
Proof.
  induction fuel as [| fuel [IHe IHw]];
    [unfold closing; split; intros; discriminate |].
  destruct (expr_bp_shrinks fuel) as [_ Hw].
  split.
  - intros lexer min_bp s lexer' H. simpl in H |- *.
    apply bind_Ok_inv in H as [[lhs l1] [E H]].
    destruct (establish_lhs_closing _ IHe _ _ _ E) as [-> | [-> ->]]; simpl.
    + apply (IHw lhs). exact H.
    + pose proof (Hw _ _ _ _ _ H) as Hlen.
      destruct lexer'; [right; auto | simpl in Hlen; lia].
  - intros lhs lexer min_bp s lexer' H. simpl in H |- *.
    pose proof (loop_body_closing _ IHe lhs lexer min_bp) as Hc.
    destruct (loop_body (expr_bp fuel) lhs lexer min_bp) as [[| lhs' l1] | |];
      simpl in H; try discriminate.
    + rewrite Hc; simpl. injection H as <- <-. left; reflexivity.
    + destruct Hc as [-> | [-> ->]]; simpl.
      * apply (IHw lhs'). exact H.
      * pose proof (Hw _ _ _ _ _ H) as Hlen.
        destruct lexer'; [right; auto | simpl in Hlen; lia].
Qed.

(** ** The lexer on a concatenation *)

Lemma remove_spaces_app (a b : string) :
  remove_spaces (a ++ b) = (remove_spaces a ++ remove_spaces b)%string.
Proof.
  induction a as [| c a IH]; simpl; [reflexivity |].
  destruct (Ascii.eqb c " "%char); simpl; rewrite IH; reflexivity.
Qed.

Lemma classify_app (a b : string) :
  Lexer.classify (a ++ b) = (Lexer.classify a ++ Lexer.classify b)%list.
Proof.
  induction a as [| c a IH]; simpl; [reflexivity |].
  rewrite IH; reflexivity.
Qed.

Lemma Lexer_init_parenthesized (s : string) :
  Lexer.__init__ ("(" ++ s ++ ")")
  = Token.Op "("%char :: (Lexer.__init__ s ++ [Token.Op ")"%char])%list.
Proof.
  unfold Lexer.__init__.
  rewrite !remove_spaces_app, !classify_app. reflexivity.
Qed.

(** ** The shape of a pass through the loop body *)

Lemma loop_body_Break (rec : Lexer.t -> Z -> outcome (S.t * Lexer.t))
    (lhs : S.t) (lexer : Lexer.t) (min_bp : Z) :
  loop_body rec lhs lexer min_bp = Ok Break ->
  Token.type (Lexer.peek lexer) = TokenType.EOF \/
  exists op rest,
    lexer = Token.Op op :: rest /\
    match postfix_binding_power op, infix_binding_power op with
    | Some (l_bp, _), _ => l_bp < min_bp
    | None, Some (l_bp, _) => l_bp < min_bp
    | None, None => True
    end.
Proof.
  unfold loop_body.
  destruct lexer as [| [[] op] rest]; simpl; try discriminate; auto.
  intros H. right. exists op, rest. split; [reflexivity |].
  destruct (postfix_binding_power op) as [[l_bp []] |].
  - destruct (l_bp <? min_bp) eqn:L; [apply Z.ltb_lt; exact L |].
    destruct (Ascii.eqb op "["%char); [| discriminate].
    destruct (rec rest 0) as [[rhs l1] | |]; simpl in H; try discriminate.
    destruct (Lexer.next l1) as [tok' l2].
    destruct (assert _); discriminate.
  - destruct (infix_binding_power op) as [[l_bp r_bp] |]; [| exact I].
    destruct (l_bp <? min_bp) eqn:L; [apply Z.ltb_lt; exact L |].
    destruct (Ascii.eqb op "?"%char).
    + destruct (rec rest 0) as [[mhs l1] | |]; simpl in H; try discriminate.
      destruct (Lexer.next l1) as [tok' l2].
      destruct (assert _); simpl in H; try discriminate.
      destruct (rec l2 r_bp) as [[rhs l3] | |]; discriminate.
    + destruct (rec rest r_bp) as [[rhs l1] | |]; discriminate.
Qed.

Lemma next_peek (lexer : Lexer.t) : fst (Lexer.next lexer) = Lexer.peek lexer.
Proof. destruct lexer; reflexivity. Qed.

Lemma assert_next_neq (lexer : Lexer.t) (tok : Token.t) :
  Lexer.peek lexer <> tok ->
  assert (Token.eqb (fst (Lexer.next lexer)) tok) = Raise AssertionError.
Proof.
  intros H. rewrite next_peek.
  destruct (Token.eqb (Lexer.peek lexer) tok) eqn:E; [| reflexivity].
  apply Token_eqb_eq in E. contradiction.
Qed.

(** ** The test suite of the program *)

Local Open Scope string_scope.

(** Every assertion of [test_parser] holds. *)
Lemma test_parser :
  expr_str "1" = Ok "1"
  /\ expr_str "1 + 2 * 3" = Ok "(+ 1 (* 2 3))"
  /\ expr_str "a + b * c * d + e" = Ok "(+ (+ a (* (* b c) d)) e)"
  /\ expr_str "f . g . h" = Ok "(. f (. g h))"
  /\ expr_str " 1 + 2 + f . g . h * 3 * 4"
      = Ok "(+ (+ 1 2) (* (* (. f (. g h)) 3) 4))"
  /\ expr_str "--1 * 2" = Ok "(* (- (- 1)) 2)"
  /\ expr_str "--f . g" = Ok "(- (- (. f g)))"
  /\ expr_str "-9!" = Ok "(- (! 9))"
  /\ expr_str "f . g !" = Ok "(! (. f g))"
  /\ expr_str "(((0)))" = Ok "0"
  /\ expr_str "x[0][1]" = Ok "([ ([ x 0) 1)"
  /\ expr_str "a ? b : c ? d : e" = Ok "(? a b (? c d e))"
  /\ expr_str "a = 0 ? b : c = d" = Ok "(= a (= (? 0 b c) d))".
Proof. repeat split; vm_compute; reflexivity. Qed.

(** ** Grouping *)

(** What the grouping case does with the token after the sub-expression:
    it pops it, whatever it is, and goes on. *)
Lemma establish_lhs_group (rec : Lexer.t -> Z -> outcome (S.t * Lexer.t))
    (rest : Lexer.t) (lhs : S.t) (lexer : Lexer.t) :
  rec rest 0 = Ok (lhs, lexer) ->
  establish_lhs rec (Token.Op "("%char :: rest)
  = Ok (lhs, snd (Lexer.next lexer)).
Proof.
  intros H. unfold establish_lhs. simpl. rewrite H. simpl.
  destruct (Lexer.next lexer); reflexivity.
Qed.

(** C1 (the code departs from the claim).  The token after a parenthesized
    sub-expression is popped and only its truth value is asserted, and every
    token is true: on ["(1]"] and on ["(1"], where that token is [Op "]"]
    and [Eof], [expr] returns the atom [1] and raises nothing. *)
Theorem grouping_accepts_any_closing_token :
  expr "(1]" = Ok (S.Atom "1")
  /\ expr "(1" = Ok (S.Atom "1")
  /\ (forall tok, assert (Token.truth tok) = Ok tt)
  /\ Token.eqb (Token.Op "]") (Token.Op ")") = false
  /\ Token.eqb Token.Eof (Token.Op ")") = false.
Proof. repeat apply conj; intros; reflexivity. Qed.

(** ** Precedence and associativity *)

(** C2.  [*] binds tighter than [+], and [+] associates to the left:
    ["1 + 2 * 3"] prints as ["(+ 1 (* 2 3))"] and ["a + b + c"] as
    ["(+ (+ a b) c)"]; the same trees are built whatever the three atoms
    are.  In the table, the right power of [+] is below the left power of
    [*], and the left power of [+] is below its right power. *)
Theorem precedence_and_left_associativity :
  expr_str "1 + 2 * 3" = Ok "(+ 1 (* 2 3))"
  /\ expr_str "a + b + c" = Ok "(+ (+ a b) c)"
  /\ (forall a b c : ascii,
        expr_bp 6 [Token.Atom a; Token.Op "+"; Token.Atom b; Token.Op "*";
                   Token.Atom c] 0
        = Ok (S.Cons "+" [S.Atom a; S.Cons "*" [S.Atom b; S.Atom c]], []))
  /\ (forall a b c : ascii,
        expr_bp 6 [Token.Atom a; Token.Op "+"; Token.Atom b; Token.Op "+";
                   Token.Atom c] 0
        = Ok (S.Cons "+" [S.Cons "+" [S.Atom a; S.Atom b]; S.Atom c], []))
  /\ infix_binding_power "+" = Some (5, 6)
  /\ infix_binding_power "*" = Some (7, 8).
Proof. repeat apply conj; intros; reflexivity. Qed.

(** C3.  [=] and [.] associate to the right: ["a = b = c"] prints as
    ["(= a (= b c))"] and ["f . g . h"] as ["(. f (. g h))"]; the same
    trees are built whatever the three atoms are.  In the table, the right
    power of each is below its left power. *)
Theorem right_associativity :
  expr_str "a = b = c" = Ok "(= a (= b c))"
  /\ expr_str "f . g . h" = Ok "(. f (. g h))"
  /\ (forall a b c : ascii,
        expr_bp 6 [Token.Atom a; Token.Op "="; Token.Atom b; Token.Op "=";
                   Token.Atom c] 0
        = Ok (S.Cons "=" [S.Atom a; S.Cons "=" [S.Atom b; S.Atom c]], []))
  /\ (forall a b c : ascii,
        expr_bp 6 [Token.Atom a; Token.Op "."; Token.Atom b; Token.Op ".";
                   Token.Atom c] 0
        = Ok (S.Cons "." [S.Atom a; S.Cons "." [S.Atom b; S.Atom c]], []))
  /\ infix_binding_power "=" = Some (2, 1)
  /\ infix_binding_power "." = Some (14, 13).
Proof. repeat apply conj; intros; reflexivity. Qed.

(** ** The ternary operator *)

(** C4.  In the loop, with [?] next and [min_bp] at most its left power 4,
    once the middle sub-expression has been parsed with [min_bp = 0]: if
    [:] comes next, the right-hand side is parsed with [min_bp = 3], the
    right power of [?], and the loop continues with the three-child node
    [(? lhs mhs rhs)]; if anything else comes next, the assertion fails.
    The operator associates to the right: ["a ? b : c ? d : e"] prints as
    ["(? a b (? c d e))"]. *)
Theorem ternary_operator (rec : Lexer.t -> Z -> outcome (S.t * Lexer.t))
    (lhs mhs : S.t) (rest lexer : Lexer.t) (min_bp : Z)
    (Hbp : min_bp <= 4) (Hmid : rec rest 0 = Ok (mhs, lexer)) :
  (forall lexer' rhs lexer'',
      lexer = Token.Op ":" :: lexer' ->
      rec lexer' 3 = Ok (rhs, lexer'') ->
      loop_body rec lhs (Token.Op "?" :: rest) min_bp
      = Ok (Continue (S.Cons "?" [lhs; mhs; rhs]) lexer''))
  /\ (Lexer.peek lexer <> Token.Op ":" ->
      loop_body rec lhs (Token.Op "?" :: rest) min_bp = Raise AssertionError)
  /\ infix_binding_power "?" = Some (4, 3)
  /\ expr_str "a ? b : c ? d : e" = Ok "(? a b (? c d e))".
Proof.
  assert (Hlt : (4 <? min_bp)%Z = false) by (apply Z.ltb_ge; exact Hbp).
  repeat apply conj; try reflexivity.
  - intros lexer' rhs lexer'' -> Hrhs.
    unfold loop_body; simpl. rewrite Hlt, Hmid; simpl. rewrite Hrhs.
    reflexivity.
  - intros Hpeek.
    unfold loop_body; simpl. rewrite Hlt, Hmid; simpl.
    pose proof (assert_next_neq lexer _ Hpeek) as Ha.
    destruct (Lexer.next lexer) as [tok' lexer']; simpl in Ha.
    rewrite Ha. reflexivity.
Qed.

Lemma ternary_operator_witness :
  loop_body (expr_bp 2) (S.Atom "a")
    [Token.Op "?"; Token.Atom "b"; Token.Op ":"; Token.Atom "c"] 0
  = Ok (Continue (S.Cons "?" [S.Atom "a"; S.Atom "b"; S.Atom "c"]) []).
Proof.
  refine (proj1 (ternary_operator (expr_bp 2) (S.Atom "a") (S.Atom "b")
                   [Token.Atom "b"; Token.Op ":"; Token.Atom "c"]
                   [Token.Op ":"; Token.Atom "c"] 0 _ _)
                [Token.Atom "c"] (S.Atom "c") [] _ _).
  - lia.
  - reflexivity.
  - reflexivity.
  - reflexivity.
Defined.

(** ** Postfix operators and indexing *)

(** C5.  The postfix operators [!] and [[] have left power 11, above the
    right power 9 of the prefix operators.  In the loop, with [min_bp] at
    most 11 (so also inside the operand of a prefix operator): [!] wraps
    [lhs] in a one-child node; [[] parses an index with [min_bp = 0] and,
    if []] comes next, pops it and builds the two-child node
    [([ lhs index)], and if anything else comes next the assertion fails.
    ["-9!"] prints as ["(- (! 9))"] and ["x[0][1]"] as ["([ ([ x 0) 1)"]. *)
Theorem postfix_and_indexing (rec : Lexer.t -> Z -> outcome (S.t * Lexer.t))
    (lhs : S.t) (rest : Lexer.t) (min_bp : Z) (Hbp : min_bp <= 11) :
  loop_body rec lhs (Token.Op "!" :: rest) min_bp
  = Ok (Continue (S.Cons "!" [lhs]) rest)
  /\ (forall rhs lexer,
        rec rest 0 = Ok (rhs, Token.Op "]" :: lexer) ->
        loop_body rec lhs (Token.Op "[" :: rest) min_bp
        = Ok (Continue (S.Cons "[" [lhs; rhs]) lexer))
  /\ (forall rhs lexer,
        rec rest 0 = Ok (rhs, lexer) ->
        Lexer.peek lexer <> Token.Op "]" ->
        loop_body rec lhs (Token.Op "[" :: rest) min_bp = Raise AssertionError)
  /\ postfix_binding_power "!" = Some (11, tt)
  /\ postfix_binding_power "[" = Some (11, tt)
  /\ prefix_binding_power "+" = Ok (tt, 9)
  /\ prefix_binding_power "-" = Ok (tt, 9)
  /\ expr_str "-9!" = Ok "(- (! 9))"
  /\ expr_str "x[0][1]" = Ok "([ ([ x 0) 1)".
Proof.
  assert (Hlt : (11 <? min_bp)%Z = false) by (apply Z.ltb_ge; exact Hbp).
  repeat apply conj; try reflexivity.
  - unfold loop_body; simpl. rewrite Hlt. reflexivity.
  - intros rhs lexer Hidx.
    unfold loop_body; simpl. rewrite Hlt, Hidx. reflexivity.
  - intros rhs lexer Hidx Hpeek.
    unfold loop_body; simpl. rewrite Hlt, Hidx; simpl.
    pose proof (assert_next_neq lexer _ Hpeek) as Ha.
    destruct (Lexer.next lexer) as [tok' lexer']; simpl in Ha.
    rewrite Ha. reflexivity.
Qed.

Lemma postfix_and_indexing_witness :
  loop_body (expr_bp 2) (S.Atom "x")
    [Token.Op "["; Token.Atom "0"; Token.Op "]"] 9
  = Ok (Continue (S.Cons "[" [S.Atom "x"; S.Atom "0"]) []).
Proof.
  refine (proj1 (proj2 (postfix_and_indexing (expr_bp 2) (S.Atom "x")
                          [Token.Atom "0"; Token.Op "]"] 9 _))
                (S.Atom "0") [] _).
  - lia.
  - reflexivity.
Defined.

(** ** Errors *)

(** C6.  [prefix_binding_power] answers [(None, 9)] for [+] and [-] and
    raises [BadOpError] for every other character.  So an operator other
    than [+], [-] and the grouping [(], met where [expr_bp] establishes
    [lhs], makes it raise [BadOpError]; ["*1"] does. *)
Theorem bad_prefix_operator (op : ascii)
    (Hplus : op <> "+"%char) (Hminus : op <> "-"%char) :
  prefix_binding_power op = Raise (BadOpError op)
  /\ prefix_binding_power "+" = Ok (tt, 9)
  /\ prefix_binding_power "-" = Ok (tt, 9)
  /\ (op <> "("%char ->
      forall fuel lexer min_bp,
        expr_bp (S fuel) (Token.Op op :: lexer) min_bp = Raise (BadOpError op))
  /\ expr "*1" = Raise (BadOpError "*").
Proof.
  assert (Hp : prefix_binding_power op = Raise (BadOpError op)).
  { destruct op as [[] [] [] [] [] [] [] []]; try reflexivity; congruence. }
  repeat apply conj; try reflexivity; [exact Hp |].
  intros Hparen fuel lexer min_bp. simpl. unfold establish_lhs; simpl.
  apply Ascii.eqb_neq in Hparen. rewrite Hparen, Hp. reflexivity.
Qed.

Lemma bad_prefix_operator_witness :
  expr_bp 1 [Token.Op "*"; Token.Atom "1"] 0 = Raise (BadOpError "*").
Proof.
  refine (proj1 (proj2 (proj2 (proj2
            (bad_prefix_operator "*"%char _ _)))) _ 0%nat [Token.Atom "1"] 0);
    discriminate.
Defined.

(** C7.  Where [expr_bp] establishes [lhs] and no token is left, it raises
    [BadTokenError] with the [Eof] token; so do ["1 +"], whose right-hand
    side is missing, and the empty input, and so does an input that ends
    where the operand of [-], of a grouping, of an index or of a ternary
    is due. *)
Theorem eof_where_operand_expected :
  (forall fuel min_bp,
      expr_bp (S fuel) [] min_bp = Raise (BadTokenError Token.Eof))
  /\ (forall rec, establish_lhs rec [] = Raise (BadTokenError Token.Eof))
  /\ expr "1 +" = Raise (BadTokenError Token.Eof)
  /\ expr "" = Raise (BadTokenError Token.Eof)
  /\ expr "-" = Raise (BadTokenError Token.Eof)
  /\ expr "(" = Raise (BadTokenError Token.Eof)
  /\ expr "x[" = Raise (BadTokenError Token.Eof)
  /\ expr "a ? b :" = Raise (BadTokenError Token.Eof).
Proof. repeat apply conj; intros; reflexivity. Qed.

(** C9.  An operator with neither a postfix nor an infix binding power,
    met in the loop, breaks it: [expr_bp] returns the tree built so far,
    raises nothing and leaves the operator and what follows in the lexer.
    ["1 @ 2"] yields the atom [1], with [@] and [2] left unread. *)
Theorem unknown_operator_ends_loop (op : ascii)
    (Hpost : postfix_binding_power op = None)
    (Hin : infix_binding_power op = None) :
  (forall rec lhs rest min_bp,
      loop_body rec lhs (Token.Op op :: rest) min_bp = Ok Break)
  /\ (forall fuel lhs rest min_bp,
        while_loop (S fuel) lhs (Token.Op op :: rest) min_bp
        = Ok (lhs, Token.Op op :: rest))
  /\ expr_lexer "1 @ 2" = Ok (S.Atom "1", [Token.Op "@"; Token.Atom "2"])
  /\ expr "1 @ 2" = Ok (S.Atom "1").
Proof.
  assert (Hb : forall rec lhs rest min_bp,
             loop_body rec lhs (Token.Op op :: rest) min_bp = Ok Break).
  { intros. unfold loop_body; simpl. rewrite Hpost, Hin. reflexivity. }
  repeat apply conj; try reflexivity; [exact Hb |].
  intros fuel lhs rest min_bp. simpl. rewrite Hb. reflexivity.
Qed.

Lemma unknown_operator_ends_loop_witness :
  while_loop 1 (S.Atom "1") [Token.Op "@"; Token.Atom "2"] 0
  = Ok (S.Atom "1", [Token.Op "@"; Token.Atom "2"]).
Proof.
  refine (proj1 (proj2 (unknown_operator_ends_loop "@"%char _ _))
                0%nat (S.Atom "1") [Token.Atom "2"] 0);
    reflexivity.
Defined.

(** ** Redundant parentheses *)

(** C8, as stated, fails: [expr] succeeds on ["1@2"], returning the atom [1]
    and leaving [@] and [2] unread, while on ["(1@2)"] it raises
    [BadTokenError]. *)
Lemma parenthesized_trailing_tokens_fail :
  expr "1@2" = Ok (S.Atom "1")
  /\ expr ("(" ++ "1@2" ++ ")") = Raise (BadTokenError (Token.Atom "2")).
Proof. split; reflexivity. Qed.

(** C8, amended.  If [expr] succeeds on [s] and has read every token of
    [s], then [expr] succeeds on [s] between parentheses and returns the
    same tree, which therefore prints identically. *)
Theorem parenthesization_round_trip (s : string) (tree : S.t)
    (Hs : expr_lexer s = Ok (tree, [])) :
  expr ("(" ++ s ++ ")") = Ok tree
  /\ expr s = Ok tree
  /\ expr_str ("(" ++ s ++ ")") = expr_str s.
Proof.
  assert (Hp : expr ("(" ++ s ++ ")") = Ok tree).
  { unfold expr, expr_lexer in *. rewrite Lexer_init_parenthesized.
    set (lexer := Lexer.__init__ s) in *.
    destruct (expr_bp_closing (S (length lexer))) as [Hc _].
    assert (Hin : exists lexer',
               expr_bp (S (length lexer))
                       (lexer ++ [Token.Op ")"%char])%list 0
               = Ok (tree, lexer') /\ snd (Lexer.next lexer') = []).
    { destruct (Hc _ _ _ _ Hs) as [H | [_ H]]; rewrite H;
        eexists; split; reflexivity. }
    destruct Hin as [lexer' [Hin Hnext]].
    cbn [length]. rewrite length_app. cbn [length].
    replace (length lexer + 1)%nat with (S (length lexer)) by lia.
    rewrite expr_bp_S, (establish_lhs_group _ _ tree lexer').
    - rewrite Hnext. reflexivity.
    - destruct (fuel_mono (S (length lexer))
                          (S (S (length lexer))))
        as [He _]; [lia |].
      rewrite He; [exact Hin | rewrite Hin; discriminate]. }
  repeat apply conj.
  - exact Hp.
  - unfold expr. rewrite Hs. reflexivity.
  - unfold expr_str. rewrite Hp. unfold expr. rewrite Hs. reflexivity.
Qed.

Lemma parenthesization_round_trip_witness :
  expr ("(" ++ "1 + 2 * 3" ++ ")")
  = Ok (S.Cons "+" [S.Atom "1"; S.Cons "*" [S.Atom "2"; S.Atom "3"]]).
Proof.
  refine (proj1 (parenthesization_round_trip "1 + 2 * 3" _ _)).
  reflexivity.
Defined.

(** ** Termination *)

(** Where the loop stands when it has ended without raising: the token it
    has left first is the end of input, an operator whose left binding
    power is below [min_bp], or an operator with no postfix and no infix
    binding power. *)
Lemma while_loop_ends (fuel : nat) (lhs : S.t) (lexer : Lexer.t) (min_bp : Z)
    (s : S.t) (lexer' : Lexer.t) :
  while_loop fuel lhs lexer min_bp = Ok (s, lexer') ->
  Token.type (Lexer.peek lexer') = TokenType.EOF \/
  exists op rest,
    lexer' = Token.Op op :: rest /\
    match postfix_binding_power op, infix_binding_power op with
    | Some (l_bp, _), _ => l_bp < min_bp
    | None, Some (l_bp, _) => l_bp < min_bp
    | None, None => True
    end.
Proof.
  revert lhs lexer. induction fuel as [| fuel IH]; [discriminate |].
  intros lhs lexer H. rewrite while_loop_S in H.
  apply bind_Ok_inv in H as [[| lhs' l1] [E H]].
  - injection H as <- <-. exact (loop_body_Break _ _ _ _ E).
  - exact (IH _ _ H).
Qed.

(** C10, as stated, fails: the loop does not always end at the end of input
    or at a binding-power cutoff.  On the tokens of ["1 @ 2"], with
    [min_bp = 0], it ends before [@]: that token is not the end of input,
    and [@] has no postfix and no infix binding power, so none that is
    below [min_bp]. *)
Lemma loop_ends_without_cutoff :
  while_loop 3 (S.Atom "1") [Token.Op "@"; Token.Atom "2"] 0
  = Ok (S.Atom "1", [Token.Op "@"; Token.Atom "2"])
  /\ expr_lexer "1 @ 2" = Ok (S.Atom "1", [Token.Op "@"; Token.Atom "2"])
  /\ Token.type (Lexer.peek [Token.Op "@"; Token.Atom "2"]) <> TokenType.EOF
  /\ ~ (exists l_bp u,
          postfix_binding_power "@" = Some (l_bp, u) /\ l_bp < 0)
  /\ ~ (exists l_bp r_bp,
          infix_binding_power "@" = Some (l_bp, r_bp) /\ l_bp < 0).
Proof.
  repeat apply conj; try reflexivity.
  - discriminate.
  - intros [l_bp [u [H _]]]. discriminate.
  - intros [l_bp [r_bp [H _]]]. discriminate.
Qed.

(** C10, amended.  With more fuel than tokens, [expr_bp] and its loop never
    run out of fuel and give the answer they give with one unit more than
    there are tokens: [expr_bp] is a total function of its token list and
    [min_bp], and its loop always ends.  A pass through the loop body that
    continues leaves strictly fewer tokens than it found.  When the loop
    ends without raising, and so when [expr_bp] returns, the first token
    left is the end of input, an operator whose left binding power is
    below [min_bp], or an operator with no postfix and no infix binding
    power; a pass of the body breaks in these cases only.  In particular
    [expr] returns a tree or raises an exception on every input. *)
Theorem expr_bp_terminates (fuel : nat) (lexer : Lexer.t) (min_bp : Z)
    (Hfuel : (length lexer < fuel)%nat) :
  expr_bp fuel lexer min_bp <> OutOfFuel
  /\ expr_bp fuel lexer min_bp = expr_bp (S (length lexer)) lexer min_bp
  /\ (forall lhs, while_loop fuel lhs lexer min_bp <> OutOfFuel)
  /\ (forall lhs,
        while_loop fuel lhs lexer min_bp
        = while_loop (S (length lexer)) lhs lexer min_bp)
  /\ (forall lhs s lexer',
        while_loop fuel lhs lexer min_bp = Ok (s, lexer') ->
        (length lexer' <= length lexer)%nat /\
        (Token.type (Lexer.peek lexer') = TokenType.EOF \/
         exists op rest,
           lexer' = Token.Op op :: rest /\
           match postfix_binding_power op, infix_binding_power op with
           | Some (l_bp, _), _ => l_bp < min_bp
           | None, Some (l_bp, _) => l_bp < min_bp
           | None, None => True
           end))
  /\ (forall s lexer',
        expr_bp fuel lexer min_bp = Ok (s, lexer') ->
        (length lexer' < length lexer)%nat /\
        (Token.type (Lexer.peek lexer') = TokenType.EOF \/
         exists op rest,
           lexer' = Token.Op op :: rest /\
           match postfix_binding_power op, infix_binding_power op with
           | Some (l_bp, _), _ => l_bp < min_bp
           | None, Some (l_bp, _) => l_bp < min_bp
           | None, None => True
           end))
  /\ (forall lhs lhs' lexer',
        loop_body (expr_bp fuel) lhs lexer min_bp = Ok (Continue lhs' lexer') ->
        (length lexer' < length lexer)%nat)
  /\ (forall lhs,
        loop_body (expr_bp fuel) lhs lexer min_bp = Ok Break ->
        Token.type (Lexer.peek lexer) = TokenType.EOF \/
        exists op rest,
          lexer = Token.Op op :: rest /\
          match postfix_binding_power op, infix_binding_power op with
          | Some (l_bp, _), _ => l_bp < min_bp
          | None, Some (l_bp, _) => l_bp < min_bp
          | None, None => True
          end)
  /\ (forall input_string, expr input_string <> OutOfFuel).
Proof.
  destruct (fuel_enough fuel) as [He Hw].
  repeat apply conj.
  - apply He. exact Hfuel.
  - destruct (fuel_mono (S (length lexer)) fuel) as [Hm _]; [lia |].
    apply Hm. apply fuel_enough. lia.
  - intros lhs. apply Hw. exact Hfuel.
  - intros lhs.
    destruct (fuel_mono (S (length lexer)) fuel) as [_ Hm]; [lia |].
    apply Hm. apply fuel_enough. lia.
  - intros lhs s lexer' H. split.
    + exact (proj2 (expr_bp_shrinks fuel) _ _ _ _ _ H).
    + exact (while_loop_ends _ _ _ _ _ _ H).
  - intros s lexer' H. split.
    + exact (proj1 (expr_bp_shrinks fuel) _ _ _ _ H).
    + destruct fuel as [| fuel']; [discriminate |].
      rewrite expr_bp_S in H. apply bind_Ok_inv in H as [[lhs l1] [_ H]].
      exact (while_loop_ends _ _ _ _ _ _ H).
  - intros lhs lhs' lexer'. apply loop_body_Continue_shrinks.
    apply expr_bp_shrinks.
  - intros lhs. apply loop_body_Break.
  - intros input_string. unfold expr, expr_lexer.
    set (toks := Lexer.__init__ input_string).
    pose proof (proj1 (fuel_enough (S (length toks))) toks 0) as Ht.
    destruct (expr_bp (S (length toks)) toks 0) as [[s l] | |];
      simpl; try discriminate.
    exfalso. apply Ht; [lia | reflexivity].
Qed.

Lemma expr_bp_terminates_witness :
  expr_bp 9 [Token.Atom "1"; Token.Op "+"; Token.Atom "2"] 0
  = expr_bp 4 [Token.Atom "1"; Token.Op "+"; Token.Atom "2"] 0.
Proof.
  refine (proj1 (proj2 (expr_bp_terminates 9
            [Token.Atom "1"; Token.Op "+"; Token.Atom "2"] 0 _))).
  simpl. lia.
Defined.


(** * Further properties *)

(** ** What a successful parse has read *)

Lemma atom_chars_app (a b : list Token.t) :
  atom_chars (a ++ b) = (atom_chars a ++ atom_chars b)%list.
Proof.
  induction a as [| tok a IH]; simpl; [reflexivity |].
  destruct (Token.type tok); simpl; rewrite IH; reflexivity.
Qed.

Lemma atom_chars_not_atom (tok : Token.t) :
  Token.type tok <> TokenType.ATOM -> atom_chars [tok] = [].
Proof. simpl. destruct (Token.type tok); congruence. Qed.

Lemma arity_prefix (op : ascii) (x : unit * Z) :
  prefix_binding_power op = Ok x -> arity_ok op 1 = true.
Proof.
  destruct op as [[] [] [] [] [] [] [] []]; simpl; try discriminate;
    reflexivity.
Qed.

Lemma arity_postfix (op : ascii) (x : Z * unit) :
  postfix_binding_power op = Some x ->
  if Ascii.eqb op "["%char then arity_ok op 2 = true
  else arity_ok op 1 = true.
Proof.
  destruct op as [[] [] [] [] [] [] [] []]; simpl; try discriminate;
    reflexivity.
Qed.

Lemma arity_infix (op : ascii) (x : Z * Z) :
  postfix_binding_power op = None ->
  infix_binding_power op = Some x ->
  if Ascii.eqb op "?"%char then arity_ok op 3 = true
  else arity_ok op 2 = true.
Proof.
  destruct op as [[] [] [] [] [] [] [] []]; simpl; try discriminate;
    reflexivity.
Qed.

Lemma loop_body_Break_peek (rec : Lexer.t -> Z -> outcome (S.t * Lexer.t))
    (lhs : S.t) (lexer : Lexer.t) (min_bp : Z) :
  loop_body rec lhs lexer min_bp = Ok Break ->
  Token.type (Lexer.peek lexer) <> TokenType.ATOM.
Proof.
  unfold loop_body. destruct (Token.type (Lexer.peek lexer)); discriminate.
Qed.

Lemma well_formed_Cons (op : ascii) (vec : list S.t) :
  well_formed (S.Cons op vec)
  = arity_ok op (length vec) && forallb well_formed vec.
Proof. reflexivity. Qed.

Section Faithful.
Variable rec : Lexer.t -> Z -> outcome (S.t * Lexer.t).
Hypothesis Hrec : faithful rec.

Lemma establish_lhs_faithful (lexer : Lexer.t) (s : S.t) (lexer' : Lexer.t) :
  establish_lhs rec lexer = Ok (s, lexer') ->
  reads lexer [] s lexer' /\ well_formed s = true.
Proof.
  unfold establish_lhs.
  destruct lexer as [| [[] c] rest]; simpl; try discriminate.
  - intros [= <- <-]. split; [| reflexivity].
    exists [Token.Atom c]. split; reflexivity.
  - destruct (Ascii.eqb c "("%char).
    + destruct (rec rest 0) as [[lhs l1] | |] eqn:E; simpl; try discriminate.
      destruct (Hrec _ _ _ _ E) as [[consumed [-> Hl]] [Hpeek Hwf]].
      destruct l1 as [| tok' l2]; simpl in Hpeek |- *; intros [= <- <-];
        (split; [| exact Hwf]).
      * exists (Token.Op c :: consumed). split; [reflexivity | exact Hl].
      * exists (Token.Op c :: consumed ++ [tok'])%list. split.
        -- simpl. rewrite <- app_assoc. reflexivity.
        -- simpl. rewrite atom_chars_app, (atom_chars_not_atom _ Hpeek),
             app_nil_r. exact Hl.
    + destruct (prefix_binding_power c) as [[[] r_bp] | |] eqn:P; simpl;
        try discriminate.
      destruct (rec rest r_bp) as [[rhs l1] | |] eqn:E; simpl;
        try discriminate.
      destruct (Hrec _ _ _ _ E) as [[consumed [-> Hl]] [Hpeek Hwf]].
      intros [= <- <-]. split.
      * exists (Token.Op c :: consumed). split; [reflexivity |].
        simpl. rewrite app_nil_r. exact Hl.
      * rewrite well_formed_Cons. cbn [length forallb].
        rewrite (arity_prefix _ _ P), Hwf. reflexivity.
Qed.

Lemma loop_body_faithful (lhs lhs' : S.t) (lexer lexer' : Lexer.t)
    (min_bp : Z) :
  well_formed lhs = true ->
  loop_body rec lhs lexer min_bp = Ok (Continue lhs' lexer') ->
  reads lexer (leaves lhs) lhs' lexer' /\ well_formed lhs' = true.
Proof.
  intros Hlhs. unfold loop_body.
  destruct lexer as [| [[] op] rest]; simpl; try discriminate.
  destruct (postfix_binding_power op) as [[l_bp []] |] eqn:Post.
  - pose proof (arity_postfix _ _ Post) as Har.
    destruct (l_bp <? min_bp)%Z; [discriminate |].
    destruct (Ascii.eqb op "["%char).
    + destruct (rec rest 0) as [[rhs l1] | |] eqn:E; simpl; try discriminate.
      destruct (Hrec _ _ _ _ E) as [[consumed [-> Hl]] [Hpeek Hwf]].
      destruct l1 as [| tok' l2]; simpl in Hpeek |- *; [discriminate |].
      destruct (Token.eqb tok' _); simpl; [| discriminate].
      intros [= <- <-]. split.
      * exists (Token.Op op :: consumed ++ [tok'])%list. split.
        -- simpl. rewrite <- app_assoc. reflexivity.
        -- simpl. rewrite atom_chars_app, (atom_chars_not_atom _ Hpeek),
             !app_nil_r, Hl. reflexivity.
      * rewrite well_formed_Cons. cbn [length forallb].
        rewrite Har, Hlhs, Hwf. reflexivity.
    + intros [= <- <-]. split.
      * exists [Token.Op op]. split; [reflexivity |].
        simpl. rewrite !app_nil_r. reflexivity.
      * rewrite well_formed_Cons. cbn [length forallb].
        rewrite Har, Hlhs. reflexivity.
  - destruct (infix_binding_power op) as [[l_bp r_bp] |] eqn:Inf;
      [| discriminate].
    pose proof (arity_infix _ _ Post Inf) as Har.
    destruct (l_bp <? min_bp)%Z; [discriminate |].
    destruct (Ascii.eqb op "?"%char).
    + destruct (rec rest 0) as [[mhs l1] | |] eqn:E; simpl; try discriminate.
      destruct (Hrec _ _ _ _ E) as [[c1 [-> Hl1]] [Hpeek Hwf1]].
      destruct l1 as [| tok' l2]; simpl in Hpeek |- *; [discriminate |].
      destruct (Token.eqb tok' _); simpl; [| discriminate].
      destruct (rec l2 r_bp) as [[rhs l3] | |] eqn:E'; simpl; try discriminate.
      destruct (Hrec _ _ _ _ E') as [[c2 [-> Hl2]] [_ Hwf2]].
      intros [= <- <-]. split.
      * exists (Token.Op op :: c1 ++ tok' :: c2)%list. split.
        -- simpl. rewrite <- app_assoc. reflexivity.
        -- simpl. rewrite atom_chars_app.
           change (tok' :: c2) with ([tok'] ++ c2)%list.
           rewrite atom_chars_app, (atom_chars_not_atom _ Hpeek),
             !app_nil_r, Hl1, Hl2. reflexivity.
      * rewrite well_formed_Cons. cbn [length forallb].
        rewrite Har, Hlhs, Hwf1, Hwf2. reflexivity.
    + destruct (rec rest r_bp) as [[rhs l1] | |] eqn:E; simpl; try discriminate.
      destruct (Hrec _ _ _ _ E) as [[consumed [-> Hl]] [_ Hwf]].
      intros [= <- <-]. split.
      * exists (Token.Op op :: consumed). split; [reflexivity |].
        simpl. rewrite !app_nil_r, Hl. reflexivity.
      * rewrite well_formed_Cons. cbn [length forallb].
        rewrite Har, Hlhs, Hwf. reflexivity.
Qed.
End Faithful.

Lemma expr_bp_faithful (fuel : nat) :
  faithful (expr_bp fuel) /\
  (forall lhs lexer min_bp s lexer',
      well_formed lhs = true ->
      while_loop fuel lhs lexer min_bp = Ok (s, lexer') ->
      reads lexer (leaves lhs) s lexer' /\
      Token.type (Lexer.peek lexer') <> TokenType.ATOM /\
      well_formed s = true).
Proof.
  induction fuel as [| fuel [IHe IHw]];
    [unfold faithful; split; intros; discriminate |].
  split.
  - intros lexer min_bp s lexer' H. rewrite expr_bp_S in H.
    apply bind_Ok_inv in H as [[lhs l1] [E H]].
    destruct (establish_lhs_faithful _ IHe _ _ _ E) as [[c1 [-> Hl1]] Hwf].
    destruct (IHw _ _ _ _ _ Hwf H) as [[c2 [-> Hl2]] [Hpeek Hwf']].
    repeat split; [| exact Hpeek | exact Hwf'].
    exists (c1 ++ c2)%list. split; [rewrite app_assoc; reflexivity |].
    rewrite Hl2, Hl1, atom_chars_app. reflexivity.
  - intros lhs lexer min_bp s lexer' Hlhs H. rewrite while_loop_S in H.
    apply bind_Ok_inv in H as [[| lhs' l1] [E H]].
    + injection H as <- <-. repeat split.
      * exists []. split; [reflexivity | rewrite app_nil_r; reflexivity].
      * exact (loop_body_Break_peek _ _ _ _ E).
      * exact Hlhs.
    + destruct (loop_body_faithful _ IHe _ _ _ _ _ Hlhs E)
        as [[c1 [-> Hl1]] Hwf].
      destruct (IHw _ _ _ _ _ Hwf H) as [[c2 [-> Hl2]] [Hpeek Hwf']].
      repeat split; [| exact Hpeek | exact Hwf'].
      exists (c1 ++ c2)%list. split; [rewrite app_assoc; reflexivity |].
      rewrite Hl2, Hl1, atom_chars_app, app_assoc. reflexivity.
Qed.

(** ** The lexer's tokens *)

Lemma classify_chars (s : string) :
  map Token.char (Lexer.classify s) = list_ascii_of_string s.
Proof.
  induction s as [| c s IH]; simpl; [reflexivity |].
  rewrite IH. destruct (isalnum c); reflexivity.
Qed.

Lemma remove_spaces_no_space (s : string) :
  Forall (fun c => c <> " "%char) (list_ascii_of_string (remove_spaces s)).
Proof.
  induction s as [| c s IH]; simpl; [constructor |].
  destruct (Ascii.eqb c " "%char) eqn:E; [exact IH |].
  simpl. constructor; [apply Ascii.eqb_neq; exact E | exact IH].
Qed.

Lemma atom_chars_classify (s : string) :
  atom_chars (Lexer.classify s) = filter isalnum (list_ascii_of_string s).
Proof.
  induction s as [| c s IH]; simpl; [reflexivity |].
  destruct (isalnum c); simpl; rewrite IH; reflexivity.
Qed.

Lemma filter_isalnum_remove_spaces (s : string) :
  filter isalnum (list_ascii_of_string (remove_spaces s))
  = filter isalnum (list_ascii_of_string s).
Proof.
  induction s as [| c s IH]; simpl; [reflexivity |].
  destruct (Ascii.eqb c " "%char) eqn:E.
  - apply Ascii.eqb_eq in E; subst c. simpl. exact IH.
  - simpl. rewrite IH. reflexivity.
Qed.

Lemma remove_spaces_idempotent (s : string) :
  remove_spaces (remove_spaces s) = remove_spaces s.
Proof.
  induction s as [| c s IH]; simpl; [reflexivity |].
  destruct (Ascii.eqb c " "%char) eqn:E; [exact IH |].
  simpl. rewrite E, IH. reflexivity.
Qed.

Lemma Lexer_tokens_aux (input_string : string) :
  map Token.char (Lexer.__init__ input_string)
  = list_ascii_of_string (remove_spaces input_string)
  /\ Forall (fun tok =>
               tok = (if isalnum (Token.char tok)
                      then Token.Atom (Token.char tok)
                      else Token.Op (Token.char tok))
               /\ Token.char tok <> " "%char
               /\ Token.type tok <> TokenType.EOF)
            (Lexer.__init__ input_string).
Proof.
  unfold Lexer.__init__. split; [apply classify_chars |].
  pose proof (remove_spaces_no_space input_string) as Hsp.
  induction (remove_spaces input_string) as [| c s IH]; simpl; [constructor |].
  inversion Hsp as [| c' l Hc Hl]; subst.
  constructor; [| exact (IH Hl)].
  destruct (isalnum c) eqn:E; simpl; rewrite E;
    (repeat split; [exact Hc | discriminate]).
Qed.

(** X1.  The lexer gives one token for every character of the input other
    than the space, in the order of the input, and none for a space: the
    characters of its tokens are the input without its spaces.  A token is
    an Atom when its character is alphanumeric and an Op otherwise; it is
    never the [Eof] token and never carries a space. *)
Theorem Lexer_tokens (input_string : string) :
  map Token.char (Lexer.__init__ input_string)
  = list_ascii_of_string (remove_spaces input_string)
  /\ Forall (fun tok =>
               tok = (if isalnum (Token.char tok)
                      then Token.Atom (Token.char tok)
                      else Token.Op (Token.char tok))
               /\ Token.char tok <> " "%char
               /\ Token.type tok <> TokenType.EOF)
            (Lexer.__init__ input_string).
Proof. exact (Lexer_tokens_aux input_string). Qed.

(** X2.  Spaces do not matter: a space inserted anywhere in the input
    leaves the tokens, the outcome of [expr] and the printed tree as they
    are, and so does removing every space. *)
Theorem whitespace_insensitive (a b : string) :
  Lexer.__init__ (a ++ " " ++ b) = Lexer.__init__ (a ++ b)
  /\ expr (a ++ " " ++ b) = expr (a ++ b)
  /\ expr_str (a ++ " " ++ b) = expr_str (a ++ b)
  /\ Lexer.__init__ (remove_spaces a) = Lexer.__init__ a
  /\ expr (remove_spaces a) = expr a.
Proof.
  assert (H1 : Lexer.__init__ (a ++ " " ++ b) = Lexer.__init__ (a ++ b)).
  { unfold Lexer.__init__. rewrite !remove_spaces_app. reflexivity. }
  assert (H2 : Lexer.__init__ (remove_spaces a) = Lexer.__init__ a).
  { unfold Lexer.__init__. rewrite remove_spaces_idempotent. reflexivity. }
  unfold expr_str, expr, expr_lexer. rewrite H1, H2. repeat split.
Qed.

(** ** What [expr_bp] and [expr] read *)

(** X3.  When [expr_bp] returns, it has read a front part of the tokens,
    at least one of them, and left the others as they were; the atoms of
    its tree, from left to right, are the atom tokens it has read, in
    order; and the first token it has left is not an atom. *)
Theorem expr_bp_reads_front (fuel : nat) (lexer : Lexer.t) (min_bp : Z)
    (s : S.t) (lexer' : Lexer.t)
    (H : expr_bp fuel lexer min_bp = Ok (s, lexer')) :
  exists consumed,
    consumed <> []
    /\ lexer = (consumed ++ lexer')%list
    /\ leaves s = atom_chars consumed
    /\ Token.type (Lexer.peek lexer') <> TokenType.ATOM.
Proof.
  destruct (proj1 (expr_bp_faithful fuel) _ _ _ _ H)
    as [[consumed [Hl Hs]] [Hpeek _]].
  exists consumed. repeat split; try assumption.
  intros ->. apply (proj1 (expr_bp_shrinks fuel)) in H.
  simpl in Hl. subst lexer'. lia.
Qed.

Lemma expr_bp_reads_front_witness :
  exists consumed,
    consumed <> []
    /\ [Token.Op "-"; Token.Atom "a"; Token.Op "*"; Token.Atom "b";
        Token.Op ")"; Token.Atom "c"]%char
       = (consumed ++ [Token.Op ")"; Token.Atom "c"]%char)%list
    /\ leaves (S.Cons "*" [S.Cons "-" [S.Atom "a"]; S.Atom "b"])
       = atom_chars consumed
    /\ Token.type (Lexer.peek [Token.Op ")"; Token.Atom "c"]%char)
       <> TokenType.ATOM.
Proof.
  refine (expr_bp_reads_front 7
            [Token.Op "-"; Token.Atom "a"; Token.Op "*"; Token.Atom "b";
             Token.Op ")"; Token.Atom "c"]%char 0 _ _ _).
  reflexivity.
Defined.

(** X4.  The atoms of the tree that [expr] returns, from left to right,
    are the first alphanumeric characters of the input, in order; they are
    all of them when [expr] has read every token. *)
Theorem expr_keeps_operands_in_order (input_string : string) (tree : S.t)
    (lexer' : Lexer.t)
    (H : expr_lexer input_string = Ok (tree, lexer')) :
  filter isalnum (list_ascii_of_string input_string)
  = (leaves tree ++ atom_chars lexer')%list
  /\ (lexer' = [] ->
      leaves tree = filter isalnum (list_ascii_of_string input_string)).
Proof.
  unfold expr_lexer in H.
  destruct (proj1 (expr_bp_faithful _) _ _ _ _ H)
    as [[consumed [Hl Hs]] _].
  assert (Hall : filter isalnum (list_ascii_of_string input_string)
                 = (leaves tree ++ atom_chars lexer')%list).
  { rewrite <- filter_isalnum_remove_spaces, <- atom_chars_classify.
    fold (Lexer.__init__ input_string).
    rewrite Hl, atom_chars_app, Hs. reflexivity. }
  split; [exact Hall |].
  intros ->. rewrite Hall. simpl. rewrite app_nil_r. reflexivity.
Qed.

Lemma expr_keeps_operands_in_order_witness :
  leaves (S.Cons "?" [S.Atom "a"; S.Cons "[" [S.Atom "b"; S.Atom "0"];
                      S.Cons "-" [S.Atom "c"]])
  = filter isalnum (list_ascii_of_string "a ? b[0] : -c").
Proof.
  refine (proj2 (expr_keeps_operands_in_order "a ? b[0] : -c" _ [] _) _);
    reflexivity.
Defined.

(** X5.  Every tree that [expr] returns is well formed: an atom has no
    children; a node headed by a prefix [+] or [-] or by [!] has one child,
    an index node and an infix node have two, and a [?] node has three. *)
Theorem expr_well_formed (input_string : string) (tree : S.t)
    (H : expr input_string = Ok tree) :
  well_formed tree = true.
Proof.
  unfold expr in H. apply bind_Ok_inv in H as [[s lexer'] [H E]].
  injection E as <-. unfold expr_lexer in H.
  exact (proj2 (proj2 (proj1 (expr_bp_faithful _) _ _ _ _ H))).
Qed.

Lemma expr_well_formed_witness :
  well_formed (S.Cons "=" [S.Atom "a";
                 S.Cons "?" [S.Atom "0"; S.Atom "b"; S.Cons "!" [S.Atom "c"]]])
  = true.
Proof.
  refine (expr_well_formed "a = 0 ? b : c!" _ _). reflexivity.
Defined.

(** ** Where the loop stops when [min_bp] is low *)

Lemma postfix_power_low (op : ascii) (l_bp : Z) (u : unit) :
  postfix_binding_power op = Some (l_bp, u) -> (2 <= l_bp)%Z.
Proof.
  destruct op as [[] [] [] [] [] [] [] []]; simpl; try discriminate;
    intros [= <-]; lia.
Qed.

Lemma infix_power_low (op : ascii) (l_bp r_bp : Z) :
  infix_binding_power op = Some (l_bp, r_bp) -> (2 <= l_bp)%Z.
Proof.
  destruct op as [[] [] [] [] [] [] [] []]; simpl; try discriminate;
    intros [= <- _]; lia.
Qed.

Lemma loop_body_low_bp (rec : Lexer.t -> Z -> outcome (S.t * Lexer.t))
    (lhs : S.t) (lexer : Lexer.t) (min_bp : Z) :
  (min_bp <= 2)%Z ->
  loop_body rec lhs lexer min_bp = loop_body rec lhs lexer 0.
Proof.
  intros Hbp. unfold loop_body.
  destruct (Token.type (Lexer.peek lexer)); try reflexivity.
  destruct (postfix_binding_power _) as [[l_bp u] |] eqn:Post.
  - apply postfix_power_low in Post.
    replace (l_bp <? min_bp)%Z with false by (symmetry; apply Z.ltb_ge; lia).
    replace (l_bp <? 0)%Z with false by (symmetry; apply Z.ltb_ge; lia).
    reflexivity.
  - destruct (infix_binding_power _) as [[l_bp r_bp] |] eqn:Inf;
      [| reflexivity].
    apply infix_power_low in Inf.
    replace (l_bp <? min_bp)%Z with false by (symmetry; apply Z.ltb_ge; lia).
    replace (l_bp <? 0)%Z with false by (symmetry; apply Z.ltb_ge; lia).
    reflexivity.
Qed.

Lemma expr_bp_low_bp (fuel : nat) :
  (forall lexer min_bp,
      (min_bp <= 2)%Z -> expr_bp fuel lexer min_bp = expr_bp fuel lexer 0) /\
  (forall lhs lexer min_bp,
      (min_bp <= 2)%Z ->
      while_loop fuel lhs lexer min_bp = while_loop fuel lhs lexer 0).
Proof.
  induction fuel as [| fuel [IHe IHw]]; [split; reflexivity |].
  split.
  - intros lexer min_bp Hbp. rewrite !expr_bp_S.
    destruct (establish_lhs (expr_bp fuel) lexer) as [[lhs l1] | |];
      simpl; try reflexivity.
    apply IHw. exact Hbp.
  - intros lhs lexer min_bp Hbp. rewrite !while_loop_S.
    rewrite (loop_body_low_bp _ _ _ _ Hbp).
    destruct (loop_body (expr_bp fuel) lhs lexer 0) as [[| lhs' l1] | |];
      simpl; try reflexivity.
    apply IHw. exact Hbp.
Qed.

Lemma while_loop_stops (fuel : nat) (lhs : S.t) (lexer : Lexer.t) (s : S.t)
    (lexer' : Lexer.t) :
  while_loop fuel lhs lexer 0 = Ok (s, lexer') ->
  Token.type (Lexer.peek lexer') = TokenType.EOF \/
  exists op rest,
    lexer' = Token.Op op :: rest /\
    postfix_binding_power op = None /\ infix_binding_power op = None.
Proof.
  revert lhs lexer. induction fuel as [| fuel IH]; [discriminate |].
  intros lhs lexer H. rewrite while_loop_S in H.
  apply bind_Ok_inv in H as [[| lhs' l1] [E H]].
  - injection H as <- <-.
    destruct (loop_body_Break _ _ _ _ E) as [Heof | [op [rest [-> Hm]]]];
      [left; exact Heof |].
    right. exists op, rest. split; [reflexivity |].
    destruct (postfix_binding_power op) as [[l_bp u] |] eqn:Post.
    + apply postfix_power_low in Post. lia.
    + destruct (infix_binding_power op) as [[l_bp r_bp] |] eqn:Inf;
        [apply infix_power_low in Inf; lia | split; reflexivity].
  - exact (IH _ _ H).
Qed.

(** X6.  No operator has a left binding power below 2, so [expr_bp] gives
    the same outcome for every [min_bp] up to 2 as for 0: the grouping, the
    index, the middle of a ternary and the entry point, which pass 0, cut
    no operator off. *)
Theorem low_min_bp_cuts_nothing (fuel : nat) (lexer : Lexer.t) (min_bp : Z)
    (Hbp : (min_bp <= 2)%Z) :
  expr_bp fuel lexer min_bp = expr_bp fuel lexer 0.
Proof. apply expr_bp_low_bp. exact Hbp. Qed.

Lemma low_min_bp_cuts_nothing_witness :
  expr_bp 6 [Token.Atom "a"; Token.Op "="; Token.Atom "b"; Token.Op "=";
             Token.Atom "c"]%char 2
  = expr_bp 6 [Token.Atom "a"; Token.Op "="; Token.Atom "b"; Token.Op "=";
               Token.Atom "c"]%char 0.
Proof.
  refine (low_min_bp_cuts_nothing 6 _ 2 _). lia.
Defined.

(** X7.  When [expr] returns and has left tokens unread, the first of them
    is an operator that has neither a postfix nor an infix binding power:
    it is not alphanumeric and not one of [! [ = ? + - * / .]. *)
Theorem expr_stops_at_unknown_operator (input_string : string) (tree : S.t)
    (tok : Token.t) (rest : Lexer.t)
    (H : expr_lexer input_string = Ok (tree, tok :: rest)) :
  exists op,
    tok = Token.Op op
    /\ isalnum op = false
    /\ postfix_binding_power op = None
    /\ infix_binding_power op = None.
Proof.
  unfold expr_lexer in H.
  destruct (proj1 (expr_bp_faithful _) _ _ _ _ H) as [[consumed [Hl _]] _].
  rewrite expr_bp_S in H. apply bind_Ok_inv in H as [[lhs l1] [_ H]].
  assert (Htok : Token.type tok <> TokenType.EOF /\
                 tok = (if isalnum (Token.char tok)
                        then Token.Atom (Token.char tok)
                        else Token.Op (Token.char tok))).
  { pose proof (proj2 (Lexer_tokens_aux input_string)) as Hall.
    rewrite Hl in Hall. apply Forall_app in Hall as [_ Hall].
    inversion Hall as [| ? ? [Heq [_ Hne]] _]; subst. split; assumption. }
  destruct Htok as [Hne Heq].
  destruct (while_loop_stops _ _ _ _ _ H) as [Heof | [op [r [[= -> ->] Hno]]]];
    [simpl in Heof; contradiction |].
  exists op. simpl in Heq.
  destruct (isalnum op); [discriminate |]. repeat split; apply Hno.
Qed.

Lemma expr_stops_at_unknown_operator_witness :
  exists op,
    Token.Op ")" = Token.Op op
    /\ isalnum op = false
    /\ postfix_binding_power op = None
    /\ infix_binding_power op = None.
Proof.
  refine (expr_stops_at_unknown_operator "a + b ) * c" _ _
            [Token.Op "*"; Token.Atom "c"]%char _).
  reflexivity.
Defined.

(** ** Tokens after the ones that were read *)

Section Stable.
Variable rec : Lexer.t -> Z -> outcome (S.t * Lexer.t).
Hypothesis Hrec : stable rec.
Variable extra : Lexer.t.

Lemma establish_lhs_stable (lexer : Lexer.t) (s : S.t) (lexer' : Lexer.t) :
  establish_lhs rec lexer = Ok (s, lexer') ->
  lexer' <> [] ->
  establish_lhs rec (lexer ++ extra)%list = Ok (s, (lexer' ++ extra)%list).
Proof.
  unfold establish_lhs.
  destruct lexer as [| [[] c] rest]; simpl; try discriminate.
  - intros [= <- <-] _. reflexivity.
  - destruct (Ascii.eqb c "("%char).
    + destruct (rec rest 0) as [[lhs l1] | |] eqn:E; simpl; try discriminate.
      destruct l1 as [| tok' l2]; simpl; intros [= <- <-] Hne;
        [congruence |].
      rewrite (Hrec _ _ _ _ extra E) by discriminate. reflexivity.
    + destruct (prefix_binding_power c) as [[[] r_bp] | |]; simpl;
        try discriminate.
      destruct (rec rest r_bp) as [[rhs l1] | |] eqn:E; simpl;
        try discriminate.
      intros [= <- <-] Hne.
      rewrite (Hrec _ _ _ _ extra E) by exact Hne. reflexivity.
Qed.

Lemma loop_body_stable (lhs : S.t) (lexer : Lexer.t) (min_bp : Z) :
  match loop_body rec lhs lexer min_bp with
  | Ok Break =>
      lexer <> [] ->
      loop_body rec lhs (lexer ++ extra)%list min_bp = Ok Break
  | Ok (Continue lhs' lexer') =>
      lexer' <> [] ->
      loop_body rec lhs (lexer ++ extra)%list min_bp
      = Ok (Continue lhs' (lexer' ++ extra)%list)
  | _ => True
  end.
Proof.
  unfold loop_body.
  destruct lexer as [| [[] op] rest]; simpl; try exact I;
    try (intros _; reflexivity); [congruence |].
  destruct (postfix_binding_power op) as [[l_bp []] |].
  - destruct (l_bp <? min_bp)%Z; [reflexivity |].
    destruct (Ascii.eqb op "["%char); [| reflexivity].
    destruct (rec rest 0) as [[rhs l1] | |] eqn:E; simpl; try exact I.
    destruct l1 as [| tok' l2]; simpl; [exact I |].
    rewrite (Hrec _ _ _ _ extra E) by discriminate. simpl.
    destruct (Token.eqb tok' _); simpl; [reflexivity | exact I].
  - destruct (infix_binding_power op) as [[l_bp r_bp] |]; [| reflexivity].
    destruct (l_bp <? min_bp)%Z; [reflexivity |].
    destruct (Ascii.eqb op "?"%char).
    + destruct (rec rest 0) as [[mhs l1] | |] eqn:E; simpl; try exact I.
      destruct l1 as [| tok' l2]; simpl; [exact I |].
      rewrite (Hrec _ _ _ _ extra E) by discriminate. simpl.
      destruct (Token.eqb tok' _); simpl; [| exact I].
      destruct (rec l2 r_bp) as [[rhs l3] | |] eqn:E'; simpl; try exact I.
      intros Hne. rewrite (Hrec _ _ _ _ extra E') by exact Hne. reflexivity.
    + destruct (rec rest r_bp) as [[rhs l1] | |] eqn:E; simpl; try exact I.
      intros Hne. rewrite (Hrec _ _ _ _ extra E) by exact Hne. reflexivity.
Qed.
End Stable.

Lemma expr_bp_stable (fuel : nat) :
  stable (expr_bp fuel) /\
  (forall lhs, stable (fun lexer min_bp => while_loop fuel lhs lexer min_bp)).
Proof.
  induction fuel as [| fuel [IHe IHw]];
    [unfold stable; split; intros; discriminate |].
  destruct (expr_bp_shrinks fuel) as [_ Hw].
  assert (Hne : forall lhs l1 min_bp s lexer',
             while_loop fuel lhs l1 min_bp = Ok (s, lexer') ->
             lexer' <> [] -> l1 <> []).
  { intros lhs l1 min_bp s lexer' H Hn ->. apply Hw in H.
    destruct lexer'; [congruence | simpl in H; lia]. }
  split.
  - intros lexer min_bp s lexer' extra H Hn. rewrite expr_bp_S in H |- *.
    apply bind_Ok_inv in H as [[lhs l1] [E H]].
    rewrite (establish_lhs_stable _ IHe extra _ _ _ E) by eauto. simpl.
    apply (IHw lhs); assumption.
  - intros lhs lexer min_bp s lexer' extra H Hn.
    rewrite while_loop_S in H |- *.
    pose proof (loop_body_stable _ IHe extra lhs lexer min_bp) as Hc.
    destruct (loop_body (expr_bp fuel) lhs lexer min_bp) as [[| lhs' l1] | |];
      simpl in H; try discriminate.
    + injection H as <- <-. rewrite (Hc Hn). reflexivity.
    + rewrite Hc by eauto. simpl. apply (IHw lhs'); assumption.
Qed.

Lemma Lexer_init_app (a b : string) :
  Lexer.__init__ (a ++ b) = (Lexer.__init__ a ++ Lexer.__init__ b)%list.
Proof.
  unfold Lexer.__init__. rewrite remove_spaces_app, classify_app. reflexivity.
Qed.

(** X8.  What [expr] leaves unread has no influence: when [expr] returns
    and has left at least one token unread, it returns the same tree
    whatever is appended to the input, and leaves the appended tokens
    unread as well. *)
Theorem unread_tokens_are_ignored (a : string) (tree : S.t) (tok : Token.t)
    (rest : Lexer.t) (H : expr_lexer a = Ok (tree, tok :: rest)) (b : string) :
  expr_lexer (a ++ b) = Ok (tree, (tok :: rest ++ Lexer.__init__ b)%list)
  /\ expr (a ++ b) = Ok tree.
Proof.
  assert (He : expr_lexer (a ++ b)
               = Ok (tree, (tok :: rest ++ Lexer.__init__ b)%list)).
  { unfold expr_lexer in *. rewrite Lexer_init_app.
    pose proof (proj1 (expr_bp_stable _) _ _ _ _ (Lexer.__init__ b) H) as Hs.
    destruct (fuel_mono (S (length (Lexer.__init__ a)))
                (S (length (Lexer.__init__ a ++ Lexer.__init__ b)%list)))
      as [Hm _]; [rewrite length_app; lia |].
    rewrite Hm; rewrite Hs by discriminate; [reflexivity | discriminate]. }
  split; [exact He |]. unfold expr. rewrite He. reflexivity.
Qed.

Lemma unread_tokens_are_ignored_witness :
  expr ("1 @ 2" ++ " + 3") = Ok (S.Atom "1").
Proof.
  refine (proj2 (unread_tokens_are_ignored "1 @ 2" (S.Atom "1")
                   (Token.Op "@") [Token.Atom "2"] _ " + 3")).
  reflexivity.
Defined.

(** ** Atoms that meet *)

(** X9.  An atom met in the loop, where an operator or the end of input is
    due, makes [expr_bp] raise [BadTokenError] with that atom.  So an input
    that begins with two alphanumeric characters, such as a number of two
    digits, is rejected with the second of them. *)
Theorem adjacent_atoms_rejected (a b : ascii) (s : string)
    (Ha : isalnum a = true) (Hb : isalnum b = true) :
  expr (String a (String b s)) = Raise (BadTokenError (Token.Atom b))
  /\ (forall fuel lhs rest min_bp,
        while_loop (S fuel) lhs (Token.Atom b :: rest) min_bp
        = Raise (BadTokenError (Token.Atom b))).
Proof.
  assert (Hsp : forall c, isalnum c = true -> Ascii.eqb c " "%char = false).
  { intros c Hc. apply Ascii.eqb_neq. intros ->. discriminate. }
  split; [| reflexivity].
  unfold expr, expr_lexer, Lexer.__init__. simpl.
  rewrite (Hsp a Ha), (Hsp b Hb). simpl. rewrite Ha, Hb. reflexivity.
Qed.

Lemma adjacent_atoms_rejected_witness :
  expr "12 + 3" = Raise (BadTokenError (Token.Atom "2")).
Proof.
  refine (proj1 (adjacent_atoms_rejected "1" "2" " + 3" _ _)); reflexivity.
Defined.

(** ** The printer *)

Lemma S_ind_nested (P : S.t -> Prop) :
  (forall type char vec, Forall P vec -> P (S.mk type char vec)) ->
  forall s, P s.
Proof.
  intros H. fix IH 1. intros [type char vec]. apply H.
  induction vec as [| s vec IHvec]; constructor; [apply IH | exact IHvec].
Qed.

Lemma string_app_assoc (a b c : string) : (a ++ b) ++ c = a ++ (b ++ c).
Proof. induction a as [| x a IH]; simpl; [| rewrite IH]; reflexivity. Qed.

Lemma fold_left_str (vec : list S.t) (init tail : string) :
  fold_left (fun string s => string ++ " " ++ S.__str__ s) vec init ++ tail
  = init ++ fold_right (fun s acc => " " ++ S.__str__ s ++ acc) tail vec.
Proof.
  revert init. induction vec as [| s vec IH]; intros init; simpl;
    [reflexivity |].
  rewrite IH, string_app_assoc. reflexivity.
Qed.

(** The children of a node as [S.__str__] prints them: each after one
    space, before the closing parenthesis. *)
Lemma str_Cons (char : ascii) (vec : list S.t) :
  S.__str__ (S.mk SType.CONS char vec)
  = String "(" (String char
      (fold_right (fun s acc => " " ++ S.__str__ s ++ acc) ")" vec)).
Proof.
  change (S.__str__ (S.mk SType.CONS char vec))
    with (fold_left (fun string s => string ++ " " ++ S.__str__ s) vec
            (String "(" (String char EmptyString)) ++ ")").
  rewrite fold_left_str. reflexivity.
Qed.

Lemma str_Atom (char : ascii) (vec : list S.t) :
  S.__str__ (S.mk SType.ATOM char vec) = String char EmptyString.
Proof. reflexivity. Qed.

(** No printed tree is the beginning of another: a string begins with the
    print of at most one printable tree. *)
Lemma str_prefix_free (s1 : S.t) :
  forall s2 r1 r2,
    printable s1 = true -> printable s2 = true ->
    S.__str__ s1 ++ r1 = S.__str__ s2 ++ r2 ->
    s1 = s2 /\ r1 = r2.
Proof.
  induction s1 as [type1 c1 vec1 IH] using S_ind_nested.
  intros [type2 c2 vec2] r1 r2 P1 P2.
  destruct type1, type2.
  - simpl in P1, P2. destruct vec1; [| discriminate].
    destruct vec2; [| discriminate].
    rewrite !str_Atom. simpl. intros [= -> ->]. split; reflexivity.
  - simpl in P1. destruct vec1; [| discriminate].
    rewrite str_Atom, str_Cons. simpl. intros [= -> _].
    discriminate.
  - simpl in P2. destruct vec2; [| discriminate].
    rewrite str_Atom, str_Cons. simpl. intros [= <- _].
    discriminate.
  - rewrite !str_Cons. simpl. intros [= -> H].
    simpl in P1, P2.
    assert (Hvec : vec1 = vec2 /\ r1 = r2).
    { clear c2. revert vec2 P2 H.
      induction IH as [| x xs Hx _ IHxs]; intros [| y ys] P2 H; simpl in *.
      - injection H as ->. split; reflexivity.
      - discriminate.
      - discriminate.
      - apply andb_true_iff in P1 as [Px Pxs].
        apply andb_true_iff in P2 as [Py Pys].
        injection H as H. rewrite !string_app_assoc in H.
        destruct (Hx y _ _ Px Py H) as [-> H'].
        destruct (IHxs Pxs ys Pys H') as [-> ->]. split; reflexivity. }
    destruct Hvec as [-> ->]. split; reflexivity.
Qed.

Lemma string_app_nil_r (a : string) : a ++ "" = a.
Proof. induction a as [| x a IH]; simpl; [| rewrite IH]; reflexivity. Qed.

Lemma str_injective (s1 s2 : S.t) :
  printable s1 = true -> printable s2 = true ->
  S.__str__ s1 = S.__str__ s2 -> s1 = s2.
Proof.
  intros P1 P2 H.
  apply (str_prefix_free s1 s2 "" "" P1 P2).
  rewrite !string_app_nil_r. exact H.
Qed.

Lemma well_formed_printable (s : S.t) :
  well_formed s = true ->
  Forall (fun c => isalnum c = true) (leaves s) ->
  printable s = true.
Proof.
  induction s as [type c vec IH] using S_ind_nested.
  destruct type; simpl.
  - destruct vec; [| discriminate]. intros _ Hl.
    inversion Hl as [| ? ? Hc _]; subst.
    apply negb_true_iff, Ascii.eqb_neq. intros ->. discriminate.
  - intros H. apply andb_true_iff in H as [_ H].
    induction IH as [| x xs Hx _ IHxs]; simpl in *; [reflexivity |].
    apply andb_true_iff in H as [Hwx Hwxs].
    intros Hl. apply Forall_app in Hl as [Hlx Hlxs].
    rewrite (Hx Hwx Hlx), (IHxs Hwxs Hlxs). reflexivity.
Qed.

Lemma expr_printable (input_string : string) (tree : S.t) :
  expr input_string = Ok tree -> printable tree = true.
Proof.
  unfold expr. intros H. apply bind_Ok_inv in H as [[s lexer'] [H E]].
  injection E as <-. unfold expr_lexer in H.
  destruct (proj1 (expr_bp_faithful _) _ _ _ _ H) as [[consumed [Hl Hs]] [_ Hwf]].
  apply well_formed_printable; [exact Hwf |].
  assert (Hall : Forall (fun c => isalnum c = true)
                   (atom_chars (Lexer.__init__ input_string))).
  { unfold Lexer.__init__. rewrite atom_chars_classify.
    apply Forall_forall. intros c Hc. apply filter_In in Hc. apply Hc. }
  rewrite Hl, atom_chars_app in Hall. apply Forall_app in Hall as [Hall _].
  simpl in Hs. rewrite Hs. exact Hall.
Qed.

(** X10.  The printed form determines the tree: two trees in which every
    ATOM node has no children and a character other than the opening
    parenthesis, and that print alike, are equal. *)
Theorem printed_form_determines_tree (s1 s2 : S.t)
    (P1 : printable s1 = true) (P2 : printable s2 = true)
    (H : S.__str__ s1 = S.__str__ s2) :
  s1 = s2.
Proof. exact (str_injective s1 s2 P1 P2 H). Qed.

Lemma printed_form_determines_tree_witness :
  S.Cons "+" [S.Atom "1"; S.Cons "*" [S.Atom "2"; S.Atom "3"]]
  = S.mk SType.CONS "+"
      [S.mk SType.ATOM "1" []; S.mk SType.CONS "*"
         [S.mk SType.ATOM "2" []; S.mk SType.ATOM "3" []]].
Proof.
  refine (printed_form_determines_tree _ _ _ _ _); reflexivity.
Defined.

(** X11.  Two inputs on which [expr] succeeds and whose results print
    alike have the same tree: nothing of the result of [expr] is lost in
    printing. *)
Theorem expr_str_determines_tree (a b : string) (tree_a tree_b : S.t)
    (Ha : expr a = Ok tree_a) (Hb : expr b = Ok tree_b)
    (H : expr_str a = expr_str b) :
  tree_a = tree_b.
Proof.
  unfold expr_str in H. rewrite Ha, Hb in H. simpl in H. injection H as H.
  exact (str_injective _ _ (expr_printable _ _ Ha) (expr_printable _ _ Hb) H).
Qed.

Lemma expr_str_determines_tree_witness :
  S.Cons "+" [S.Atom "a"; S.Cons "*" [S.Atom "b"; S.Atom "c"]]
  = S.Cons "+" [S.Atom "a"; S.Cons "*" [S.Atom "b"; S.Atom "c"]].
Proof.
  refine (expr_str_determines_tree "a + b * c" "a+(b*c)" _ _ _ _ _);
    reflexivity.
Defined.

(** ** Any number of parentheses *)

Lemma expr_lexer_parenthesized (s : string) (tree : S.t) :
  expr_lexer s = Ok (tree, []) ->
  expr_lexer ("(" ++ s ++ ")") = Ok (tree, []).
Proof.
  unfold expr_lexer. intros Hs. rewrite Lexer_init_parenthesized.
  set (lexer := Lexer.__init__ s) in *.
  destruct (expr_bp_closing (S (length lexer))) as [Hc _].
  assert (Hin : exists lexer',
             expr_bp (S (length lexer)) (lexer ++ [Token.Op ")"%char])%list 0
             = Ok (tree, lexer') /\ snd (Lexer.next lexer') = []).
  { destruct (Hc _ _ _ _ Hs) as [H | [_ H]]; rewrite H;
      eexists; split; reflexivity. }
  destruct Hin as [lexer' [Hin Hnext]].
  cbn [length]. rewrite length_app. cbn [length].
  replace (length lexer + 1)%nat with (S (length lexer)) by lia.
  rewrite expr_bp_S, (establish_lhs_group _ _ tree lexer').
  - rewrite Hnext. reflexivity.
  - destruct (fuel_mono (S (length lexer)) (S (S (length lexer))))
      as [He _]; [lia |].
    rewrite He; [exact Hin | rewrite Hin; discriminate].
Qed.

(** X12.  An input that [expr] reads to its end may be put between any
    number of pairs of parentheses: [expr] still reads it to its end and
    returns the same tree. *)
Theorem nested_parentheses (s : string) (tree : S.t) (n : nat)
    (Hs : expr_lexer s = Ok (tree, [])) :
  expr_lexer (parenthesize n s) = Ok (tree, [])
  /\ expr (parenthesize n s) = Ok tree.
Proof.
  assert (H : expr_lexer (parenthesize n s) = Ok (tree, [])).
  { induction n as [| n IH]; simpl; [exact Hs |].
    apply expr_lexer_parenthesized. exact IH. }
  split; [exact H |]. unfold expr. rewrite H. reflexivity.
Qed.

Lemma nested_parentheses_witness :
  expr "(((a ? b : c)))" = Ok (S.Cons "?" [S.Atom "a"; S.Atom "b"; S.Atom "c"]).
Proof.
  refine (proj2 (nested_parentheses "a ? b : c" _ 3 _)). reflexivity.
Defined.

(** ** Inputs of one character *)

(** X13.  On an input of one character, [expr] returns the atom when the
    character is alphanumeric, which prints as that character; raises
    [BadTokenError] with [Eof] for a space, which leaves no token, and for
    [+], [-] and [(], whose operand is missing; and raises [BadOpError]
    with the character otherwise. *)
Theorem single_character_input (c : ascii) :
  expr (String c "")
  = (if Ascii.eqb c " " then Raise (BadTokenError Token.Eof)
     else if isalnum c then Ok (S.Atom c)
     else match c with
          | "+"%char | "-"%char | "("%char => Raise (BadTokenError Token.Eof)
          | _ => Raise (BadOpError c)
          end)
  /\ (isalnum c = true -> expr_str (String c "") = Ok (String c "")).
Proof.
  destruct c as [[] [] [] [] [] [] [] []]; split; intros;
    try reflexivity; discriminate.
Qed.

Lemma single_character_input_witness :
  expr_str "x" = Ok "x".
Proof.
  refine (proj2 (single_character_input "x") _). reflexivity.
Defined.

(** ** What a raised exception carries *)

Lemma bind_Raise_inv {A B : Type} (m : outcome A) (k : A -> outcome B) (e : Exn) :
  bind m k = Raise e ->
  m = Raise e \/ exists a, m = Ok a /\ k a = Raise e.
Proof.
  destruct m as [a | e' |]; simpl; intro H; try discriminate.
  - right. exists a. split; [reflexivity | exact H].
  - left. injection H as ->. reflexivity.
Qed.

Lemma explains_incl (lexer lexer' : Lexer.t) (e : Exn) :
  incl lexer lexer' -> explains lexer e -> explains lexer' e.
Proof.
  intros Hi. destruct e as [tok | op |]; simpl.
  - intros [Ht [-> | Hin]]; split; auto.
  - intros [Hin Hp]; split; auto.
  - intros [Hin | Hin]; auto.
Qed.

Lemma prefix_binding_power_Raise (op : ascii) (e : Exn) :
  prefix_binding_power op = Raise e -> e = BadOpError op.
Proof.
  destruct op as [[] [] [] [] [] [] [] []]; simpl; try discriminate;
    intros [= <-]; reflexivity.
Qed.

Section Explained.
Variable rec : Lexer.t -> Z -> outcome (S.t * Lexer.t).
Hypothesis Hfaithful : faithful rec.
Hypothesis Hrec : explained rec.

Lemma establish_lhs_explained (lexer : Lexer.t) (e : Exn) :
  establish_lhs rec lexer = Raise e -> explains lexer e.
Proof.
  unfold establish_lhs.
  destruct lexer as [| [[] c] rest]; simpl; try discriminate.
  - intros [= <-]. simpl. split; [discriminate | left; reflexivity].
  - destruct (Ascii.eqb c "("%char) eqn:Eb.
    + destruct (rec rest 0) as [[lhs l1] | |] eqn:E; simpl; try discriminate.
      * destruct (Lexer.next l1). discriminate.
      * intros [= <-]. apply (explains_incl rest); [apply incl_tl, incl_refl |].
        exact (Hrec _ _ _ E).
    + destruct (prefix_binding_power c) as [[[] r_bp] | |] eqn:P; simpl;
        try discriminate.
      * destruct (rec rest r_bp) as [[rhs l1] | |] eqn:E; simpl;
          try discriminate.
        intros [= <-]. apply (explains_incl rest); [apply incl_tl, incl_refl |].
        exact (Hrec _ _ _ E).
      * intros [= <-]. pose proof (prefix_binding_power_Raise _ _ P) as ->.
        simpl. repeat split.
        -- left. reflexivity.
        -- apply Ascii.eqb_neq. exact Eb.
        -- exact P.
  - intros [= <-]. simpl. split; [discriminate | right; left; reflexivity].
Qed.

Lemma loop_body_explained (lhs : S.t) (lexer : Lexer.t) (min_bp : Z) (e : Exn) :
  loop_body rec lhs lexer min_bp = Raise e -> explains lexer e.
Proof.
  unfold loop_body.
  destruct lexer as [| [[] op] rest]; simpl; try discriminate.
  - intros [= <-]. simpl. split; [discriminate | right; left; reflexivity].
  - destruct (postfix_binding_power op) as [[l_bp []] |].
    + destruct (l_bp <? min_bp)%Z; [discriminate |].
      destruct (Ascii.eqb op "["%char) eqn:Eb; [| discriminate].
      apply Ascii.eqb_eq in Eb; subst op.
      destruct (rec rest 0) as [[rhs l1] | |] eqn:E; simpl; try discriminate.
      * destruct (Lexer.next l1) as [tok' l2].
        destruct (Token.eqb tok' _); simpl; [discriminate |].
        intros [= <-]. simpl. left. left. reflexivity.
      * intros [= <-]. apply (explains_incl rest); [apply incl_tl, incl_refl |].
        exact (Hrec _ _ _ E).
    + destruct (infix_binding_power op) as [[l_bp r_bp] |]; [| discriminate].
      destruct (l_bp <? min_bp)%Z; [discriminate |].
      destruct (Ascii.eqb op "?"%char) eqn:Eb.
      * apply Ascii.eqb_eq in Eb; subst op.
        destruct (rec rest 0) as [[mhs l1] | |] eqn:E; simpl; try discriminate.
        -- destruct (Hfaithful _ _ _ _ E) as [[consumed [Hl _]] _].
           destruct l1 as [| tok' l2]; simpl.
           ++ intros [= <-]. simpl. right. left. reflexivity.
           ++ destruct (Token.eqb tok' _); simpl.
              ** destruct (rec l2 r_bp) as [[rhs l3] | |] eqn:E'; simpl;
                   try discriminate.
                 intros [= <-]. apply (explains_incl l2); [| exact (Hrec _ _ _ E')].
                 rewrite Hl. apply incl_tl, incl_appr, incl_tl, incl_refl.
              ** intros [= <-]. simpl. right. left. reflexivity.
        -- intros [= <-]. apply (explains_incl rest); [apply incl_tl, incl_refl |].
           exact (Hrec _ _ _ E).
      * destruct (rec rest r_bp) as [[rhs l1] | |] eqn:E; simpl; try discriminate.
        intros [= <-]. apply (explains_incl rest); [apply incl_tl, incl_refl |].
        exact (Hrec _ _ _ E).
Qed.
End Explained.

Lemma expr_bp_explained (fuel : nat) :
  explained (expr_bp fuel) /\
  (forall lhs lexer min_bp e,
      well_formed lhs = true ->
      while_loop fuel lhs lexer min_bp = Raise e -> explains lexer e).
Proof.
  induction fuel as [| fuel [IHe IHw]];
    [unfold explained; split; intros; discriminate |].
  destruct (expr_bp_faithful fuel) as [Hf _].
  split.
  - intros lexer min_bp e H. rewrite expr_bp_S in H.
    apply bind_Raise_inv in H as [H | [[lhs l1] [E H]]].
    + exact (establish_lhs_explained _ IHe _ _ H).
    + destruct (establish_lhs_faithful _ Hf _ _ _ E) as [[c1 [-> _]] Hwf].
      apply (explains_incl l1); [apply incl_appr, incl_refl |].
      exact (IHw _ _ _ _ Hwf H).
  - intros lhs lexer min_bp e Hlhs H. rewrite while_loop_S in H.
    apply bind_Raise_inv in H as [H | [[| lhs' l1] [E H]]].
    + exact (loop_body_explained _ Hf IHe _ _ _ _ H).
    + discriminate.
    + destruct (loop_body_faithful _ Hf _ _ _ _ _ Hlhs E) as [[c1 [-> _]] Hwf].
      apply (explains_incl l1); [apply incl_appr, incl_refl |].
      exact (IHw _ _ _ _ Hwf H).
Qed.

(** X14.  An exception that [expr] raises is explained by the tokens of the
    input.  A [BadTokenError] carries the [Eof] token or an atom of the
    input, never an operator; a [BadOpError] carries an operator of the
    input, not alphanumeric, other than [(], that the prefix table refuses;
    and an [AssertionError] is raised only when the input has a [[] or a
    [?]. *)
Theorem expr_exceptions_explained (input_string : string) (e : Exn)
    (H : expr input_string = Raise e) :
  explains (Lexer.__init__ input_string) e
  /\ match e with
     | BadTokenError tok =>
         tok = Token.Eof \/
         exists c, tok = Token.Atom c /\ isalnum c = true
     | BadOpError op => isalnum op = false
     | AssertionError => True
     end.
Proof.
  unfold expr in H. apply bind_Raise_inv in H as [H | [[s l] [_ H]]];
    [| discriminate].
  unfold expr_lexer in H. apply (proj1 (expr_bp_explained _)) in H.
  split; [exact H |].
  pose proof (proj2 (Lexer_tokens_aux input_string)) as Hall.
  rewrite Forall_forall in Hall.
  destruct e as [tok | op |]; simpl in H; [| | exact I].
  - destruct H as [Ht [-> | Hin]]; [left; reflexivity |].
    destruct (Hall _ Hin) as [Heq _]. right. exists (Token.char tok).
    destruct (isalnum (Token.char tok)); [split; [exact Heq | reflexivity] |].
    rewrite Heq in Ht. simpl in Ht. congruence.
  - destruct H as [Hin _]. destruct (Hall _ Hin) as [Heq _]. simpl in Heq.
    destruct (isalnum op); [discriminate | reflexivity].
Qed.

Lemma expr_exceptions_explained_witness :
  explains (Lexer.__init__ "a ? b ; c") AssertionError /\ True.
Proof.
  refine (expr_exceptions_explained "a ? b ; c" AssertionError _).
  reflexivity.
Defined.

(** ** Chains of operators *)

Lemma infix_facts (op : ascii) (l_bp r_bp : Z) :
  infix_binding_power op = Some (l_bp, r_bp) ->
  postfix_binding_power op = None /\
  (Ascii.eqb op "?" = true -> (r_bp < l_bp)%Z).
Proof.
  destruct op as [[] [] [] [] [] [] [] []]; simpl; try discriminate;
    intros [= <- <-]; split; try reflexivity; try discriminate; lia.
Qed.

Lemma infix_cases (op : ascii) (l_bp r_bp : Z) :
  infix_binding_power op = Some (l_bp, r_bp) ->
  op <> "?"%char ->
  In (op, l_bp, r_bp)
     [("="%char, 2, 1); ("+"%char, 5, 6); ("-"%char, 5, 6); ("*"%char, 7, 8);
      ("/"%char, 7, 8); ("."%char, 14, 13)]%Z.
Proof.
  destruct op as [[] [] [] [] [] [] [] []]; simpl; try discriminate;
    intros [= <- <-] N; try congruence; tauto.
Qed.

Lemma loop_body_infix (rec : Lexer.t -> Z -> outcome (S.t * Lexer.t))
    (lhs : S.t) (op : ascii) (rest : Lexer.t) (min_bp l_bp r_bp : Z) :
  infix_binding_power op = Some (l_bp, r_bp) ->
  Ascii.eqb op "?" = false ->
  loop_body rec lhs (Token.Op op :: rest) min_bp
  = if (l_bp <? min_bp)%Z then Ok Break
    else '(rhs, lexer) <- rec rest r_bp ;;
         Ok (Continue (S.Cons op [lhs; rhs]) lexer).
Proof.
  intros Hinf Hq. unfold loop_body; simpl.
  rewrite (proj1 (infix_facts _ _ _ Hinf)), Hinf, Hq. reflexivity.
Qed.

Section LeftChain.
Variables l_bp r_bp : Z.
Hypothesis Hlr : (l_bp < r_bp)%Z.

Lemma while_loop_left_chain (pairs : list (ascii * ascii)) :
  forall lhs fuel min_bp,
    Forall (fun p => infix_binding_power (fst p) = Some (l_bp, r_bp)) pairs ->
    (min_bp <= l_bp)%Z ->
    (2 * length pairs < fuel)%nat ->
    while_loop fuel lhs (infix_tokens pairs) min_bp
    = Ok (left_nested lhs pairs, []).
Proof.
  induction pairs as [| [op a] ps IH]; intros lhs fuel min_bp Hall Hbp Hfuel.
  - destruct fuel; [lia | reflexivity].
  - destruct fuel as [| [| fuel]]; try (simpl in Hfuel; lia).
    inversion Hall as [| ? ? Hop Hps]; subst. simpl in Hop.
    assert (Hq : Ascii.eqb op "?" = false).
    { destruct (Ascii.eqb op "?") eqn:E; [| reflexivity].
      apply (proj2 (infix_facts _ _ _ Hop)) in E. lia. }
    rewrite while_loop_S.
    change (infix_tokens ((op, a) :: ps))
      with (Token.Op op :: Token.Atom a :: infix_tokens ps).
    rewrite (loop_body_infix _ _ _ _ _ _ _ Hop Hq).
    replace (l_bp <? min_bp)%Z with false by (symmetry; apply Z.ltb_ge; lia).
    assert (Hcut : expr_bp (S fuel) (Token.Atom a :: infix_tokens ps) r_bp
                   = Ok (S.Atom a, infix_tokens ps)).
    { rewrite expr_bp_S. unfold establish_lhs; simpl.
      destruct fuel; [simpl in Hfuel; lia |]. rewrite while_loop_S.
      destruct ps as [| [op' a'] ps']; [reflexivity |].
      inversion Hps as [| ? ? Hop' _]; subst. simpl in Hop'.
      change (infix_tokens ((op', a') :: ps'))
        with (Token.Op op' :: Token.Atom a' :: infix_tokens ps').
      assert (Hq' : Ascii.eqb op' "?" = false).
      { destruct (Ascii.eqb op' "?") eqn:E; [| reflexivity].
        apply (proj2 (infix_facts _ _ _ Hop')) in E. lia. }
      rewrite (loop_body_infix _ _ _ _ _ _ _ Hop' Hq').
      replace (l_bp <? r_bp)%Z with true by (symmetry; apply Z.ltb_lt; lia).
      reflexivity. }
    rewrite Hcut. cbn [bind].
    apply (IH (S.Cons op [lhs; S.Atom a])); [exact Hps | exact Hbp |].
    simpl in Hfuel. lia.
Qed.
End LeftChain.

(** X15.  A chain of infix operators of one level whose left power is
    below its right power, such as [+] and [-], or [*] and [/], groups to
    the left, whatever its length: [a op1 a1 op2 a2 ...] is parsed as
    [((a op1 a1) op2 a2) ...], and read to its end. *)
Theorem left_associative_chain (l_bp r_bp : Z) (a : ascii)
    (pairs : list (ascii * ascii)) (fuel : nat) (min_bp : Z)
    (Hlr : (l_bp < r_bp)%Z)
    (Hops : Forall (fun p => infix_binding_power (fst p) = Some (l_bp, r_bp))
              pairs)
    (Hbp : (min_bp <= l_bp)%Z)
    (Hfuel : (length (Token.Atom a :: infix_tokens pairs) < fuel)%nat) :
  expr_bp fuel (Token.Atom a :: infix_tokens pairs) min_bp
  = Ok (left_nested (S.Atom a) pairs, []).
Proof.
  destruct fuel as [| fuel]; [simpl in Hfuel; lia |].
  rewrite expr_bp_S. unfold establish_lhs; simpl.
  apply (while_loop_left_chain l_bp r_bp Hlr); [exact Hops | exact Hbp |].
  simpl in Hfuel. unfold infix_tokens in Hfuel.
  rewrite (flat_map_constant_length (c := 2%nat)) in Hfuel
    by (intros; reflexivity).
  lia.
Qed.

Lemma left_associative_chain_witness :
  expr_bp 8 (Token.Atom "a" :: infix_tokens
               [("-", "b"); ("+", "c"); ("-", "d")]%char) 0
  = Ok (S.Cons "-" [S.Cons "+" [S.Cons "-" [S.Atom "a"; S.Atom "b"];
                                S.Atom "c"]; S.Atom "d"], []).
Proof.
  refine (left_associative_chain 5 6 "a"
            [("-", "b"); ("+", "c"); ("-", "d")]%char 8 0 _ _ _ _).
  - lia.
  - repeat constructor.
  - lia.
  - simpl. lia.
Defined.

Lemma while_loop_Eof (fuel : nat) (lhs : S.t) (min_bp : Z) :
  while_loop (S fuel) lhs [] min_bp = Ok (lhs, []).
Proof. reflexivity. Qed.

Lemma establish_lhs_Atom (rec : Lexer.t -> Z -> outcome (S.t * Lexer.t))
    (a : ascii) (rest : Lexer.t) :
  establish_lhs rec (Token.Atom a :: rest) = Ok (S.Atom a, rest).
Proof. reflexivity. Qed.

Section RightChain.
Variables l_bp r_bp : Z.
Hypothesis Hrl : (r_bp < l_bp)%Z.

Lemma expr_bp_right_chain (pairs : list (ascii * ascii)) :
  forall a fuel min_bp,
    Forall (fun p => infix_binding_power (fst p) = Some (l_bp, r_bp) /\
                     fst p <> "?"%char) pairs ->
    (min_bp <= l_bp)%Z ->
    (2 * length pairs + 1 < fuel)%nat ->
    expr_bp fuel (Token.Atom a :: infix_tokens pairs) min_bp
    = Ok (right_nested a pairs, []).
Proof.
  induction pairs as [| [op b] ps IH]; intros a fuel min_bp Hall Hbp Hfuel.
  - destruct fuel as [| [| fuel]]; try (simpl in Hfuel; lia). reflexivity.
  - destruct fuel as [| [| fuel]]; try (simpl in Hfuel; lia).
    inversion Hall as [| ? ? [Hop Hne] Hps]; subst. simpl in Hop, Hne.
    apply Ascii.eqb_neq in Hne.
    rewrite expr_bp_S, establish_lhs_Atom. cbn [bind].
    rewrite while_loop_S.
    change (infix_tokens ((op, b) :: ps))
      with (Token.Op op :: Token.Atom b :: infix_tokens ps).
    rewrite (loop_body_infix _ _ _ _ _ _ _ Hop Hne).
    replace (l_bp <? min_bp)%Z with false by (symmetry; apply Z.ltb_ge; lia).
    rewrite (IH b fuel r_bp Hps) by (simpl in Hfuel; lia).
    cbn [bind]. destruct fuel; [simpl in Hfuel; lia |].
    rewrite while_loop_Eof. reflexivity.
Qed.
End RightChain.

(** X16.  A chain of infix operators of one level whose right power is
    below its left power, [=] or [.], groups to the right, whatever its
    length: [a op1 a1 op2 a2 ...] is parsed as [a op1 (a1 op2 (a2 ...))],
    and read to its end. *)
Theorem right_associative_chain (l_bp r_bp : Z) (a : ascii)
    (pairs : list (ascii * ascii)) (fuel : nat) (min_bp : Z)
    (Hrl : (r_bp < l_bp)%Z)
    (Hops : Forall (fun p => infix_binding_power (fst p) = Some (l_bp, r_bp) /\
                             fst p <> "?"%char) pairs)
    (Hbp : (min_bp <= l_bp)%Z)
    (Hfuel : (length (Token.Atom a :: infix_tokens pairs) < fuel)%nat) :
  expr_bp fuel (Token.Atom a :: infix_tokens pairs) min_bp
  = Ok (right_nested a pairs, []).
Proof.
  apply (expr_bp_right_chain l_bp r_bp Hrl); [exact Hops | exact Hbp |].
  simpl in Hfuel. unfold infix_tokens in Hfuel.
  rewrite (flat_map_constant_length (c := 2%nat)) in Hfuel
    by (intros; reflexivity).
  lia.
Qed.

Lemma right_associative_chain_witness :
  expr_bp 8 (Token.Atom "a" :: infix_tokens
               [("=", "b"); ("=", "c"); ("=", "d")]%char) 0
  = Ok (S.Cons "=" [S.Atom "a";
          S.Cons "=" [S.Atom "b"; S.Cons "=" [S.Atom "c"; S.Atom "d"]]], []).
Proof.
  refine (right_associative_chain 2 1 "a"
            [("=", "b"); ("=", "c"); ("=", "d")]%char 8 0 _ _ _ _).
  - lia.
  - repeat constructor; discriminate.
  - lia.
  - simpl. lia.
Defined.

(** X17.  Between two infix operators other than [?], the binding powers
    decide the grouping: [a op1 b op2 c] is parsed as [(a op1 b) op2 c]
    when the left power of [op2] is below the right power of [op1], and as
    [a op1 (b op2 c)] otherwise. *)
Theorem binding_powers_decide_grouping (op1 op2 a b c : ascii)
    (l1 r1 l2 r2 : Z)
    (H1 : infix_binding_power op1 = Some (l1, r1))
    (H2 : infix_binding_power op2 = Some (l2, r2))
    (N1 : op1 <> "?"%char) (N2 : op2 <> "?"%char) :
  expr_bp 6 [Token.Atom a; Token.Op op1; Token.Atom b; Token.Op op2;
             Token.Atom c] 0
  = Ok (if (l2 <? r1)%Z
        then S.Cons op2 [S.Cons op1 [S.Atom a; S.Atom b]; S.Atom c]
        else S.Cons op1 [S.Atom a; S.Cons op2 [S.Atom b; S.Atom c]], []).
Proof.
  pose proof (infix_cases _ _ _ H1 N1) as C1.
  pose proof (infix_cases _ _ _ H2 N2) as C2.
  simpl in C1, C2.
  repeat (destruct C1 as [[= <- <- <-] | C1]; [| try contradiction]);
    repeat (destruct C2 as [[= <- <- <-] | C2]; [| try contradiction]);
    reflexivity.
Qed.

Lemma binding_powers_decide_grouping_witness :
  expr_bp 6 [Token.Atom "a"; Token.Op "*"; Token.Atom "b"; Token.Op "+";
             Token.Atom "c"]%char 0
  = Ok (S.Cons "+" [S.Cons "*" [S.Atom "a"; S.Atom "b"]; S.Atom "c"], []).
Proof.
  refine (binding_powers_decide_grouping "*" "+" "a" "b" "c" 7 8 5 6 _ _ _ _);
    try reflexivity; discriminate.
Defined.

(** X18.  A chain of prefix operators [+] and [-] before an atom nests, the
    first operator outermost, whatever its length; the tokens are read to
    their end. *)
Theorem prefix_chain (ops : list ascii) (a : ascii) (fuel : nat) (min_bp : Z)
    (Hops : Forall (fun op => op = "+"%char \/ op = "-"%char) ops)
    (Hfuel : (length (map Token.Op ops ++ [Token.Atom a])%list < fuel)%nat) :
  expr_bp fuel (map Token.Op ops ++ [Token.Atom a])%list min_bp
  = Ok (prefixed ops a, []).
Proof.
  revert fuel min_bp Hfuel.
  induction ops as [| op ops IH]; intros fuel min_bp Hfuel.
  - destruct fuel as [| [| fuel]]; try (simpl in Hfuel; lia). reflexivity.
  - inversion Hops as [| ? ? Hop Hrest]; subst.
    destruct fuel as [| fuel]; [simpl in Hfuel; lia |].
    rewrite expr_bp_S.
    assert (He : establish_lhs (expr_bp fuel)
                   (map Token.Op (op :: ops) ++ [Token.Atom a])%list
                 = Ok (prefixed (op :: ops) a, [])).
    { unfold establish_lhs. simpl.
      destruct Hop as [-> | ->]; simpl;
        rewrite (IH Hrest fuel 9) by (simpl in Hfuel; lia); reflexivity. }
    rewrite He. cbn [bind].
    destruct fuel; [simpl in Hfuel; lia |]. apply while_loop_Eof.
Qed.

Lemma prefix_chain_witness :
  expr_bp 5 [Token.Op "-"; Token.Op "+"; Token.Op "-"; Token.Atom "1"]%char 0
  = Ok (S.Cons "-" [S.Cons "+" [S.Cons "-" [S.Atom "1"]]], []).
Proof.
  refine (prefix_chain ["-"; "+"; "-"]%char "1" 5 0 _ _).
  - repeat first
      [ apply Forall_nil
      | apply Forall_cons; [first [left; reflexivity | right; reflexivity] |] ].
  - simpl. lia.
Defined.
